(** * Nonce tracker and transaction queue of the payments library

    A shallow embedding of [client/nonce_tracker.go] and
    [transfer/queue.go], and the properties of the nonce allocator and of
    the submission queue that are stated about them.

    Conventions.
    - A [uint64] is a [Z] in the range [0, 2^64); [v++] wraps around and the
      wrap is written out ([uint64_incr]).
    - A Go [error] or pointer that may be [nil] is an [option].
    - The mutex of the tracker and the single worker goroutine of the queue
      serialise the calls, so every method is a function from state to
      state; what the environment decides (the answers of the chain, which
      ready case a [select] takes, when a concurrent [Stop] arrives) is a
      parameter of the function. *)

From Stdlib Require Import ZArith Lia String.
From stdpp Require Import gmap list.

Local Open Scope Z_scope.

(** ** Machine integers *)

Definition uint64_modulus : Z := 2 ^ 64.

Definition is_uint64 (v : Z) : Prop := 0 <= v < uint64_modulus.

(** [v++] on a [uint64]. *)
Definition uint64_incr (v : Z) : Z := (v + 1) mod uint64_modulus.

(** [common.Address] is a 20-byte array and [common.Hash] a 32-byte array;
    both are used as opaque identifiers and are read here as the number
    their bytes spell. *)
Abbreviation common_Address := N (only parsing).
Abbreviation common_Hash := N (only parsing).

(** ** Errors

    The three sentinel errors of [transfer/queue.go], the error built by
    [fmt.Errorf("transaction %q failed in queue: %w", txHash,
    ErrTrasactionMissing)] in [checkIfTransactionExists], and the errors
    that come from outside the package (the chain client, the caller's send
    operation), which are told apart by their message. *)
Inductive error : Type :=
| ErrQueueClosed
| ErrQueueMissingResult
| ErrTrasactionMissing
| ErrFailedInQueue (txHash : common_Hash)
| ErrExternal (msg : string).

(** [errors.Unwrap]: only the [%w] error wraps another one. *)
Definition Unwrap (e : error) : option error :=
  match e with
  | ErrFailedInQueue _ => Some ErrTrasactionMissing
  | _ => None
  end.

(** ** client/nonce_tracker.go *)

Module Client.

(** The part of [ethclient.Client] the tracker uses. [answers i a] is what
    the node replies to the [i]-th [PendingNonceAt] query when it is about
    account [a]; [asked] logs the queries made so far, oldest first. *)
Record EthClient : Type := {
  answers : nat -> common_Address -> Z * option error;
  asked : list common_Address
}.

Definition PendingNonceAt (c : EthClient) (account : common_Address)
  : Z * option error * EthClient :=
  (answers c (length (asked c)) account,
   {| answers := answers c; asked := asked c ++ [account] |}).

(** [nonceLock] has no field: the lock is held for the whole of
    [GetNonce], which makes the calls atomic and totally ordered. *)
Record NonceTracker : Type := {
  client : EthClient;
  nonces : gmap common_Address Z
}.

Definition NewNonceTracker (c : EthClient) : NonceTracker :=
  {| client := c; nonces := ∅ |}.

Definition GetNonce (nt : NonceTracker) (account : common_Address)
  : (Z * option error) * NonceTracker :=
  match nonces nt !! account with
  | Some v =>
      let v' := uint64_incr v in
      ((v', None),
       {| client := client nt; nonces := <[account := v']> (nonces nt) |})
  | None =>
      let '(nonce, e, c') := PendingNonceAt (client nt) account in
      match e with
      | Some _ => ((nonce, e), {| client := c'; nonces := nonces nt |})
      | None =>
          ((nonce, None),
           {| client := c'; nonces := <[account := nonce]> (nonces nt) |})
      end
  end.

(** A sequence of calls in the order in which they take the lock. Each
    result is paired with the account it was asked for. *)
Fixpoint GetNonces (nt : NonceTracker) (accounts : list common_Address)
  : list (common_Address * (Z * option error)) * NonceTracker :=
  match accounts with
  | [] => ([], nt)
  | a :: rest =>
      let '(r, nt1) := GetNonce nt a in
      let '(rs, nt2) := GetNonces nt1 rest in
      ((a, r) :: rs, nt2)
  end.

(** The results handed out for [account], in call order. *)
Definition issued (account : common_Address)
    (rs : list (common_Address * (Z * option error))) : list (Z * option error) :=
  snd <$> filter (λ ar, fst ar = account) rs.

(** A node on which every account is at the last nonce a [uint64] can
    hold, and one that answers every query with the same nonce. *)
Definition constant_client (p : Z) : EthClient :=
  {| answers := λ _ _, (p, None); asked := [] |}.

Definition max_nonce_client : EthClient :=
  constant_client (uint64_modulus - 1).

(** A node that is out of reach for the first query and healthy after. *)
Definition flaky_client (p : Z) : EthClient :=
  {| answers := λ i _,
       match i with
       | O => (0, Some (ErrExternal "connection refused"))
       | S _ => (p, None)
       end;
     asked := [] |}.

(** The number of calls, among those of a run, that returned an error. *)
Definition failed (rs : list (common_Address * (Z * option error))) : nat :=
  length (filter (λ ar, is_Some (snd (snd ar))) rs).

End Client.

(** ** transfer/queue.go *)

Module Transfer.

(** [time.Duration] counts nanoseconds. *)
Definition Second : Z := 1000000000.

(** Conversion to [int64]: the low 64 bits, read as a signed number. *)
Definition to_int64 (z : Z) : Z := (z + 2 ^ 63) mod 2 ^ 64 - 2 ^ 63.

(** [Int64] of a [big.Int]: the low word of the magnitude, negated when the
    number is negative. *)
Definition big_Int64 (x : Z) : Z :=
  let v := to_int64 (Z.abs x mod 2 ^ 64) in
  if x <? 0 then to_int64 (- v) else v.

(** What the queue reads of a [types.Transaction]: [tx.ChainId()] and
    [tx.Hash()]. *)
Record Transaction : Type := {
  ChainId : Z;
  Hash : common_Hash
}.

(** Modelled from the spec: the declaration of [TransactionSendFn] is not
    among the sources; it is "a zero-argument send operation returning
    (transactionHandle, error)". *)
Definition TransactionSendFn : Type :=
  unit -> option Transaction * option error.

Record QueueResponse : Type := {
  tx : option Transaction;
  err : option error
}.

(** Result extracts the innards of the queue response. *)
Definition Result (qr : QueueResponse) : option Transaction * option error :=
  match tx qr, err qr with
  | None, None => (None, Some ErrQueueMissingResult)
  | _, _ => (tx qr, err qr)
  end.

(** A response channel [chan<- QueueResponse], seen from the side of its
    reader: what was delivered on it, oldest first, and whether it was
    closed. Channels are named by numbers; a channel that does not occur
    in the store has not been used yet. *)
Record RespChan : Type := {
  received : list QueueResponse;
  chan_closed : bool
}.

Definition fresh_chan : RespChan := {| received := []; chan_closed := false |}.

Record queueEntry : Type := {
  entry_exec : TransactionSendFn;
  entry_resp : nat
}.

(** What the worker does to the outside, in order. *)
Inductive Event : Type :=
| EvExec (ch : nat)
    (* [entry.exec()] of the entry that answers on [ch] *)
| EvTransactionByHash (chainID : Z) (txHash : common_Hash)
    (* [q.bc.TransactionByHash(chainID, txHash)] *)
| EvLogErr (e : error) (txHash : common_Hash).
    (* [log.Err(err)...Msg("failed to get transaction by hash in queue")] *)

(** Everything outside the [Queue] value that its methods read or change:
    the response channels, the log of events and the clock. *)
Record World : Type := {
  chans : gmap nat RespChan;
  trace : list Event;
  now : Z
}.

Definition chan (w : World) (ch : nat) : RespChan :=
  default fresh_chan (chans w !! ch).

Definition set_chans (w : World) (m : gmap nat RespChan) : World :=
  {| chans := m; trace := trace w; now := now w |}.

Definition log_event (w : World) (ev : Event) : World :=
  {| chans := chans w; trace := trace w ++ [ev]; now := now w |}.

Definition set_now (w : World) (t : Z) : World :=
  {| chans := chans w; trace := trace w; now := t |}.

(** A call either returns or panics; the bounded loop of the poller may
    also use up its iterations. *)
Inductive result (A : Type) : Type :=
| Ok (a : A)
| Panic (why : string)
| OutOfFuel.
Arguments Ok {A} a.
Arguments Panic {A} why.
Arguments OutOfFuel {A}.

Global Instance result_ret : MRet result := λ A a, Ok a.
Global Instance result_bind : MBind result := λ A B k r,
  match r with
  | Ok a => k a
  | Panic why => Panic why
  | OutOfFuel => OutOfFuel
  end.

(** The chain-query collaborator. An implementation carries its own state
    of type [C]; each call returns the reply and the next state. *)
Class QueueMultichainClient (C : Type) : Type := {
  TransactionByHash :
    C -> Z -> common_Hash -> (option Transaction * bool * option error) * C
}.

(** [queue] is the buffer of the channel [q.queue], oldest entry first;
    [sendq] are the entries of the callers that are blocked in
    [q.queue <- entry] because the buffer is full; [size] is the capacity
    given to [make]; [queue_closed] tells that [close(q.queue)] has run.
    [stop] tells that the channel [q.stop] is closed and [once] that
    [q.once] has fired. *)
Record Queue (C : Type) : Type := {
  queue : list queueEntry;
  sendq : list queueEntry;
  size : nat;
  queue_closed : bool;
  stop : bool;
  bc : C;
  timeout : Z;
  once : bool
}.
Arguments queue {C} _.
Arguments sendq {C} _.
Arguments size {C} _.
Arguments queue_closed {C} _.
Arguments stop {C} _.
Arguments bc {C} _.
Arguments timeout {C} _.
Arguments once {C} _.

(** The cases of the [select] in [checkIfTransactionExists], and of the one
    in [Run]. *)
Inductive PollCase : Type := CtxDone | StopClosed | TimerFired.
Inductive RunCase : Type := CaseStop | CaseEntry.

Global Instance PollCase_eq_dec : EqDecision PollCase.
Proof. solve_decision. Defined.

(** What the environment decides during one iteration of the worker:
    [run_pick] is the case the [select] of [Run] takes when both are
    ready; [stop_at] is the time at which some other goroutine calls
    [Stop], if one does; [prefer i] is the case that the [i]-th [select]
    of the poller takes if it is among those that are ready first. *)
Record Env : Type := {
  run_pick : RunCase;
  stop_at : option Z;
  prefer : nat -> PollCase
}.

Section WithClient.
Context {C : Type} `{QueueMultichainClient C}.

(** NewQueue returns a new queue. *)
Definition NewQueue (sz : nat) (cl : C) (tmo : Z) : Queue C :=
  {| queue := []; sendq := []; size := sz; queue_closed := false;
     stop := false; bc := cl; timeout := tmo; once := false |}.

Definition set_bc (q : Queue C) (cl : C) : Queue C :=
  {| queue := queue q; sendq := sendq q; size := size q;
     queue_closed := queue_closed q; stop := stop q; bc := cl;
     timeout := timeout q; once := once q |}.

Definition set_queue (q : Queue C) (buf blocked : list queueEntry)
  : Queue C :=
  {| queue := buf; sendq := blocked; size := size q;
     queue_closed := queue_closed q; stop := stop q; bc := bc q;
     timeout := timeout q; once := once q |}.

Definition close_queue (q : Queue C) : Queue C :=
  {| queue := queue q; sendq := sendq q; size := size q;
     queue_closed := true; stop := stop q; bc := bc q;
     timeout := timeout q; once := once q |}.

(** Stop will stop the thread: [q.once.Do(func() { close(q.stop) })]. *)
Definition Stop (q : Queue C) : Queue C :=
  if once q then q
  else
    {| queue := queue q; sendq := sendq q; size := size q;
       queue_closed := queue_closed q; stop := true; bc := bc q;
       timeout := timeout q; once := true |}.

(** [ch <- QueueResponse{tx, err}; close(ch)]. A send on a closed
    channel panics. The reader of the channel is taken to be there. *)
Definition resp (t : option Transaction) (e : option error) (ch : nat)
    (w : World) : result World :=
  let c := chan w ch in
  if chan_closed c then Panic "send on closed channel"
  else
    Ok (set_chans w
          (<[ch := {| received := received c ++ [{| tx := t; err := e |}];
                      chan_closed := true |}]> (chans w))).

(** The outcome of a call of [TransactionEnqueue]: it returned, or the
    caller is parked in the send on the full buffer. *)
Inductive Enqueued : Type :=
| Returned (e : option error)
| Blocked.

Definition TransactionEnqueue (exec : TransactionSendFn) (ch : nat)
    (q : Queue C) : result (Enqueued * Queue C) :=
  if stop q then Ok (Returned (Some ErrQueueClosed), q)
  else
    let entry := {| entry_exec := exec; entry_resp := ch |} in
    if queue_closed q then Panic "send on closed channel"
    else if (length (queue q) <? size q)%nat
    then Ok (Returned None, set_queue q (queue q ++ [entry]) (sendq q))
    else Ok (Blocked, set_queue q (queue q) (sendq q ++ [entry])).

(** [entry := <-q.queue]: the oldest buffered entry, after which the
    first parked sender moves into the buffer; with nothing buffered, the
    entry of the first parked sender. *)
Definition receive (q : Queue C) : option (queueEntry * Queue C) :=
  match queue q, sendq q with
  | e :: buf, s :: blocked => Some (e, set_queue q (buf ++ [s]) blocked)
  | e :: buf, [] => Some (e, set_queue q buf [])
  | [], s :: blocked => Some (s, set_queue q [] blocked)
  | [], [] => None
  end.

(** *** The confirmation poller

    One [select] of the poller, entered at time [t] with the context
    expiring at [deadline] and [q.stop] closed at [stop_time] (if ever):
    a case can be taken from the moment its channel is ready, the
    goroutine wakes at the first such moment, and any case that is ready
    at that moment may be the one taken. *)
Definition fires (deadline : Z) (stop_time : option Z) (t : Z)
    (c : PollCase) : option Z :=
  match c with
  | CtxDone => Some (Z.max t deadline)
  | StopClosed => Z.max t <$> stop_time
  | TimerFired => Some (t + Second)
  end.

Definition wake_time (deadline : Z) (stop_time : option Z) (t : Z) : Z :=
  let w := Z.min (Z.max t deadline) (t + Second) in
  match stop_time with
  | Some s => Z.min w (Z.max t s)
  | None => w
  end.

Definition ready (deadline : Z) (stop_time : option Z) (t : Z)
  : list PollCase :=
  filter (λ c, fires deadline stop_time t c
               = Some (wake_time deadline stop_time t))
         [CtxDone; StopClosed; TimerFired].

Definition select_case (pref : PollCase) (cands : list PollCase)
  : PollCase :=
  if decide (pref ∈ cands) then pref else default TimerFired (head cands).

(** Has the [Stop] of the environment been called by time [t]? *)
Definition stop_called (env : Env) (t : Z) : bool :=
  match stop_at env with
  | Some s => s <=? t
  | None => false
  end.

(** The loop of [checkIfTransactionExists]; [ctx] is given by its
    [deadline], [i] counts the iterations made, and [fuel] bounds those
    that are left. The calls of the collaborator and of the logger take
    no time. *)
Fixpoint checkIfTransactionExists (fuel : nat) (env : Env) (i : nat)
    (deadline chainID : Z) (txHash : common_Hash)
    (q : Queue C) (w : World) : result (option error * Queue C * World) :=
  match fuel with
  | O => OutOfFuel
  | S fuel' =>
      let t := now w in
      let stop_time := if stop q then Some t else stop_at env in
      let t' := wake_time deadline stop_time t in
      let q1 := if stop_called env t' then Stop q else q in
      let w1 := set_now w t' in
      match select_case (prefer env i) (ready deadline stop_time t) with
      | CtxDone => Ok (Some (ErrFailedInQueue txHash), q1, w1)
      | StopClosed => Ok (None, q1, w1)
      | TimerFired =>
          let '(_, pending, e, cl) :=
            TransactionByHash (bc q1) chainID txHash in
          let q2 := set_bc q1 cl in
          let w2 := log_event w1 (EvTransactionByHash chainID txHash) in
          match e with
          | Some e' =>
              checkIfTransactionExists fuel' env (S i) deadline chainID
                txHash q2 (log_event w2 (EvLogErr e' txHash))
          | None =>
              if pending
              then checkIfTransactionExists fuel' env (S i) deadline
                     chainID txHash q2 w2
              else Ok (None, q2, w2)
          end
      end
  end.

(** The iterations the poller can need: the timer can be taken only
    while a whole second is left before the deadline. *)
Definition poll_fuel (tmo : Z) : nat := S (Z.to_nat (tmo / Second)).

(** [context.WithTimeout(context.Background(), q.timeout)] expires
    [q.timeout] from now. *)
Definition waitAfterSend (env : Env) (chainID : Z) (txHash : common_Hash)
    (q : Queue C) (w : World) : result (option error * Queue C * World) :=
  checkIfTransactionExists (poll_fuel (timeout q)) env 0
    (now w + timeout q) chainID txHash q w.

(** *** The worker *)

(** [for entry := range q.queue { q.resp(nil, ErrQueueClosed, entry.resp) }]
    over the entries left in the buffer of the closed channel. *)
Fixpoint drain (entries : list queueEntry) (w : World) : result World :=
  match entries with
  | [] => Ok w
  | entry :: rest =>
      w1 ← resp None (Some ErrQueueClosed) (entry_resp entry) w;
      drain rest w1
  end.

(** One pass through the body of the [for] of [Run]: the loop goes on,
    [Run] has returned, or neither case of the [select] is ready and the
    worker sleeps. *)
Inductive Step : Type :=
| Continue (q : Queue C) (w : World)
| Return (q : Queue C) (w : World)
| Idle.

(** [case <-q.stop:]. [close(q.queue)] makes the senders parked on the
    channel panic, which ends the program. *)
Definition Run_stop (q : Queue C) (w : World) : result Step :=
  match sendq q with
  | _ :: _ => Panic "send on closed channel"
  | [] =>
      w1 ← drain (queue q) w;
      Ok (Return (close_queue (set_queue q [] [])) w1)
  end.

(** [case entry := <-q.queue:], with the entry received and the queue
    that is left. *)
Definition Run_entry (env : Env) (entry : queueEntry) (q : Queue C)
    (w : World) : result Step :=
  let w1 := log_event w (EvExec (entry_resp entry)) in
  match entry_exec entry () with
  | (_, Some e) =>
      w2 ← resp None (Some e) (entry_resp entry) w1;
      Ok (Continue q w2)
  | (None, None) => Panic "nil pointer dereference"
  | (Some t, None) =>
      '(e, q2, w2) ← waitAfterSend env (big_Int64 (ChainId t)) (Hash t) q w1;
      w3 ← resp (Some t) e (entry_resp entry) w2;
      Ok (Continue q2 w3)
  end.

(** The [select] of [Run]. [Run] is started once: on a queue whose
    channel is already closed it would close it again, or call the nil
    [exec] of the zero entry a closed channel yields. *)
Definition Run_iteration (env : Env) (q : Queue C) (w : World)
  : result Step :=
  if queue_closed q then Panic "Run on a closed queue"
  else
    match stop q, receive q with
    | false, None => Ok Idle
    | true, None => Run_stop q w
    | false, Some (entry, q1) => Run_entry env entry q1 w
    | true, Some (entry, q1) =>
        match run_pick env with
        | CaseStop => Run_stop q w
        | CaseEntry => Run_entry env entry q1 w
        end
    end.

(** Run will start to read the queue: the passes of the loop, one for
    each [Env] the environment supplies, until [Run] returns. *)
Fixpoint Run (envs : list Env) (q : Queue C) (w : World) : result Step :=
  match envs with
  | [] => Ok (Continue q w)
  | env :: rest =>
      s ← Run_iteration env q w;
      match s with
      | Continue q1 w1 => Run rest q1 w1
      | Return q1 w1 => Ok (Return q1 w1)
      | Idle => Ok Idle
      end
  end.

(** *** The queue and its callers

    The goroutines that use one queue, interleaved: callers of
    [TransactionEnqueue] and of [Stop], and the worker making one pass
    of its loop. *)
Inductive Action : Type :=
| DoEnqueue (exec : TransactionSendFn) (ch : nat)
| DoStop
| DoRun (env : Env).

Inductive Worker : Type := Looping | Finished | Crashed.

Record System : Type := {
  sys_queue : Queue C;
  sys_world : World;
  worker : Worker
}.

Definition act (a : Action) (s : System) : System :=
  match worker s, a with
  | Crashed, _ => s
  | _, DoEnqueue exec ch =>
      match TransactionEnqueue exec ch (sys_queue s) with
      | Ok (_, q1) =>
          {| sys_queue := q1; sys_world := sys_world s; worker := worker s |}
      | _ =>
          {| sys_queue := sys_queue s; sys_world := sys_world s;
             worker := Crashed |}
      end
  | _, DoStop =>
      {| sys_queue := Stop (sys_queue s); sys_world := sys_world s;
         worker := worker s |}
  | Finished, DoRun _ => s
  | Looping, DoRun env =>
      match Run_iteration env (sys_queue s) (sys_world s) with
      | Ok (Continue q1 w1) =>
          {| sys_queue := q1; sys_world := w1; worker := Looping |}
      | Ok (Return q1 w1) =>
          {| sys_queue := q1; sys_world := w1; worker := Finished |}
      | Ok Idle => s
      | _ =>
          {| sys_queue := sys_queue s; sys_world := sys_world s;
             worker := Crashed |}
      end
  end.

Definition acts (l : list Action) (s : System) : System :=
  foldl (λ s a, act a s) s l.

(** *** Notions used to state the properties *)

(** The poller touches neither the buffer of the queue nor its
    parameters. *)
Definition same_buffers (q q' : Queue C) : Prop :=
  queue q' = queue q /\ sendq q' = sendq q /\ size q' = size q
  /\ queue_closed q' = queue_closed q /\ timeout q' = timeout q.

(** The events the poller logs. *)
Definition is_poll_event (ev : Event) : Prop :=
  match ev with
  | EvExec _ => False
  | _ => True
  end.

(** A channel that no entry of the stopped queue answers on, and for which
    no send operation has been called. *)
Definition never_accepted (ch : nat) (s : System) : Prop :=
  stop (sys_queue s) = true
  /\ (ch ∉ entry_resp <$> (queue (sys_queue s) ++ sendq (sys_queue s)))
  /\ (EvExec ch ∉ trace (sys_world s)).

(** The buffer holds at most [size] entries, and callers are parked only
    while it is full. *)
Definition buffer_ok (q : Queue C) : Prop :=
  (length (queue q) <= size q)%nat
  /\ (sendq q ≠ [] -> length (queue q) = size q).

(** An action in which nobody calls [Stop]. *)
Definition no_stop (a : Action) : Prop :=
  match a with
  | DoStop => False
  | DoRun env => stop_at env = None
  | DoEnqueue _ _ => True
  end.

(** A response that carries a transaction or an error, and a world in
    which every response delivered so far does. *)
Definition nonempty_response (r : QueueResponse) : Prop :=
  tx r ≠ None \/ err r ≠ None.

Definition all_nonempty (w : World) : Prop :=
  ∀ ch r, r ∈ received (chan w ch) -> nonempty_response r.

(** The number of calls of [TransactionByHash] among the events. *)
Definition is_lookup (ev : Event) : bool :=
  match ev with
  | EvTransactionByHash _ _ => true
  | _ => false
  end.

Definition lookups (evs : list Event) : nat :=
  length (filter (λ ev, is_lookup ev = true) evs).

(** The channels of the entries whose send operations were called, in the
    order of the calls. *)
Definition execs (evs : list Event) : list nat :=
  omap (λ ev, match ev with EvExec ch => Some ch | _ => None end) evs.

End WithClient.

Arguments Step : clear implicits.
Arguments System : clear implicits.

(** What the caller of the entry that answers on [ch] has on its channel
    after a pass of the worker, and the time at which the pass ends. *)
Definition delivered {C : Type} (r : result (Step C)) (ch : nat)
  : option (RespChan * Z) :=
  match r with
  | Ok (Continue _ w) | Ok (Return _ w) => Some (chan w ch, now w)
  | _ => None
  end.

(** *** Scenarios

    Two collaborators: one that reports the transaction pending for its
    first [pending_left] polls and confirmed from then on, and one that
    reports it pending for ever. Neither returns an error. *)
Record PendingFor : Type := { pending_left : nat }.

Global Instance PendingFor_client : QueueMultichainClient PendingFor :=
  {| TransactionByHash c _ _ :=
       ((None, (0 <? pending_left c)%nat, None),
        {| pending_left := Nat.pred (pending_left c) |}) |}.

Inductive AlwaysPending : Type := always_pending.

Global Instance AlwaysPending_client : QueueMultichainClient AlwaysPending :=
  {| TransactionByHash c _ _ := ((None, true, None), c) |}.

(** No channel used, nothing logged, the clock at zero. *)
Definition world0 : World := {| chans := ∅; trace := []; now := 0 |}.

(** The transaction with hash [0xAA], and send operations that succeed with
    it, fail, or fail with the sentinel error of [Result]. *)
Definition txAA : Transaction := {| ChainId := 1; Hash := 170 |}.

Definition send_ok : TransactionSendFn := λ _, (Some txAA, None).

Definition send_fails : TransactionSendFn :=
  λ _, (None, Some (ErrExternal "nonce too low")).

Definition send_missing : TransactionSendFn :=
  λ _, (None, Some ErrQueueMissingResult).

(** Capacity 1, timeout 2 seconds: [exec] is enqueued to answer on channel
    1, and the worker makes one pass. *)
Definition one_pass {C : Type} `{QueueMultichainClient C} (cl : C)
    (exec : TransactionSendFn) (env : Env) : result (Step C) :=
  '(_, q) ← TransactionEnqueue exec 1 (NewQueue 1 cl (2 * Second));
  Run_iteration env q world0.

(** An environment without shutdown, in which every [select] of the poller
    that has the choice takes [c]. *)
Definition quiet (c : PollCase) : Env :=
  {| run_pick := CaseEntry; stop_at := None; prefer := λ _, c |}.

(** A running queue of capacity 1 and timeout 2 seconds that holds one
    entry, which answers on channel 1. *)
Definition one_entry {C : Type} (cl : C) (exec : TransactionSendFn) : Queue C :=
  {| queue := [ {| entry_exec := exec; entry_resp := 1 |} ];
     sendq := []; size := 1; queue_closed := false; stop := false;
     bc := cl; timeout := 2 * Second; once := false |}.


(** A stopped queue with two entries left in its buffer. *)
Definition two_left : Queue AlwaysPending :=
  {| queue := [ {| entry_exec := send_ok; entry_resp := 1 |};
                {| entry_exec := send_fails; entry_resp := 2 |} ];
     sendq := []; size := 2; queue_closed := false; stop := true;
     bc := always_pending; timeout := 2 * Second; once := true |}.

End Transfer.

(** ** The identity registry ([package registry])

    [RegisterIdentity] and [LookupPublicKey]. The contract session and
    [crypto.UnmarshalPubkey] are not code of this package: they are
    parameters. *)

Module Registry.

Section WithContract.
(** The types of [signature.V], [signature.R] and [signature.S], of a
    transaction and of an [ecdsa.PublicKey]. *)
Context {SigV SigR SigS Tx Key : Type}.

(** The declaration of [RegistrationData] is not among the sources; these
    are the fields the two functions read: [data.PublicKey.Part1],
    [data.PublicKey.Part2], and the three parts of [data.Signature]. *)
Record RegistrationData : Type := {
  PublicKey_Part1 : list Byte.byte;
  PublicKey_Part2 : list Byte.byte;
  Signature_V : SigV;
  Signature_R : SigR;
  Signature_S : SigS
}.

(** The two methods of [generated.IdentityRegistrySession] that are
    called. *)
Record IdentityRegistrySession : Type := {
  session_RegisterIdentity :
    list Byte.byte -> list Byte.byte -> SigV -> SigR -> SigS
    -> option Tx * option error;
  GetPublicKey :
    N -> list Byte.byte * list Byte.byte * option error
}.

Record Registry : Type := {
  session : IdentityRegistrySession;
  Address : common_Address
}.

(** [var a [32]byte; copy(a[:], src)]: the first 32 bytes of [src], and
    zeros where [src] has none. *)
Definition copy32 (src : list Byte.byte) : list Byte.byte :=
  take 32 src ++ replicate (32 - length src) Byte.x00.

Definition RegisterIdentity (registry : Registry) (data : RegistrationData)
  : option Tx * option error :=
  let pubKeyPart1 := copy32 (PublicKey_Part1 data) in
  let pubKeyPart2 := copy32 (PublicKey_Part2 data) in
  session_RegisterIdentity (session registry) pubKeyPart1 pubKeyPart2
    (Signature_V data) (Signature_R data) (Signature_S data).

(** [append(prefix, append(part1[:], part2[:]...)...)] with
    [prefix = []byte{4}]. *)
Definition fullKey (part1 part2 : list Byte.byte) : list Byte.byte :=
  [Byte.x04] ++ (part1 ++ part2).

Definition LookupPublicKey
    (UnmarshalPubkey : list Byte.byte -> option Key * option error)
    (registry : Registry) (address : common_Address)
  : option Key * option error :=
  let '(part1, part2, e) := GetPublicKey (session registry) address in
  match e with
  | Some _ => (None, e)
  | None => UnmarshalPubkey (fullKey part1 part2)
  end.

End WithContract.

End Registry.

(** ** transfer/gas/etherscan.go

    The station and the address it asks. [GetGasPrices] computes on
    [float64] and is not embedded. *)

Module Gas.

Local Open Scope string_scope.

(** [strings.HasSuffix]. *)
Definition HasSuffix (s suffix : string) : bool :=
  (String.length suffix <=? String.length s)%nat
  && String.eqb
       (substring (String.length s - String.length suffix)
          (String.length suffix) s)
       suffix.

Definition DefaultEtherscanEndpointURI : string := "https://api.etherscan.io/".

(** [client] is an [http.Client] with a timeout of ten seconds; only the
    timeout is kept. [upperBound] may be nil. *)
Record EtherscanStation : Type := {
  apiKey : string;
  endpointURI : string;
  upperBound : option Z;
  client_Timeout : Z
}.

Definition NewEtherscanStation (key uri : string) (ub : option Z)
  : EtherscanStation :=
  let endpoint := if HasSuffix uri "/" then uri else uri ++ "/" in
  {| client_Timeout := 10 * Transfer.Second;
     endpointURI := uri;
     upperBound := ub;
     apiKey := key |}.

(** The argument of [esa.client.Get] in [request]:
    [fmt.Sprintf("%v%v%v", esa.endpointURI, "api?module=...", esa.apiKey)]. *)
Definition request_url (esa : EtherscanStation) : string :=
  endpointURI esa
  ++ "api?module=gastracker&action=gasoracle&apikey="
  ++ apiKey esa.

(** The fields of [etherscanGasPriceResponse] that [request] reads. *)
Record etherscanGasPriceResponse (R : Type) : Type := {
  Status : string;
  Message : string;
  Result : R
}.
Arguments Status {R} _.
Arguments Message {R} _.
Arguments Result {R} _.

(** The errors [request] returns: the one of the HTTP client or of the
    reading of the body, the wrapped one of the decoder with the body, and
    the one with the message of the API. *)
Inductive request_error : Type :=
| TransportError (msg : string)
| DecodeError (msg : string) (body : string)
| ApiError (message : string).

(** [request], over the HTTP round trip ([client.Get] and
    [ioutil.ReadAll], an error of either as [inr]) and [json.Unmarshal].
    The warning logged for an empty key is left out. *)
Definition request {R : Type}
    (fetch : string -> string + string)
    (Unmarshal : string -> etherscanGasPriceResponse R + string)
    (esa : EtherscanStation)
  : etherscanGasPriceResponse R + request_error :=
  match fetch (request_url esa) with
  | inr msg => inr (TransportError msg)
  | inl body =>
      match Unmarshal body with
      | inr msg => inr (DecodeError msg body)
      | inl res =>
          if String.eqb (Status res) "1" then inl res
          else inr (ApiError (Message res))
      end
  end.

End Gas.

(** * Properties of the nonce tracker *)

Module NonceProps.
Import Client.

Lemma uint64_modulus_pos : 0 < uint64_modulus.
Proof. reflexivity. Qed.

Lemma uint64_incr_add v j :
  (uint64_incr v + j) mod uint64_modulus = (v + 1 + j) mod uint64_modulus.
Proof. unfold uint64_incr. apply Zplus_mod_idemp_l. Qed.

(** The two branches of [GetNonce]. *)
Lemma GetNonce_cached nt a v :
  nonces nt !! a = Some v ->
  GetNonce nt a
  = ((uint64_incr v, None),
     {| client := client nt;
        nonces := <[a := uint64_incr v]> (nonces nt) |}).
Proof. intros Hv. unfold GetNonce. now rewrite Hv. Qed.

Lemma GetNonce_fresh_ok nt a p c' :
  nonces nt !! a = None ->
  PendingNonceAt (client nt) a = (p, None, c') ->
  GetNonce nt a
  = ((p, None), {| client := c'; nonces := <[a := p]> (nonces nt) |}).
Proof. intros Hn Hp. unfold GetNonce. now rewrite Hn, Hp. Qed.

Lemma GetNonce_fresh_err nt a p e c' :
  nonces nt !! a = None ->
  PendingNonceAt (client nt) a = (p, Some e, c') ->
  GetNonce nt a = ((p, Some e), {| client := c'; nonces := nonces nt |}).
Proof. intros Hn Hp. unfold GetNonce. now rewrite Hn, Hp. Qed.

(** A call for one account leaves the entries of the others alone. *)
Lemma GetNonce_other nt a b :
  a ≠ b -> nonces (GetNonce nt b).2 !! a = nonces nt !! a.
Proof.
  intros Hab. unfold GetNonce.
  destruct (nonces nt !! b) as [v|] eqn:Hb.
  - apply lookup_insert_ne. congruence.
  - destruct (PendingNonceAt (client nt) b) as [[p [e|]] c']; [reflexivity|].
    apply lookup_insert_ne. congruence.
Qed.

Lemma GetNonces_cons nt a rest :
  GetNonces nt (a :: rest)
  = ((a, (GetNonce nt a).1) :: (GetNonces (GetNonce nt a).2 rest).1,
     (GetNonces (GetNonce nt a).2 rest).2).
Proof.
  simpl. destruct (GetNonce nt a) as [r nt1]. simpl.
  now destruct (GetNonces nt1 rest).
Qed.

Lemma GetNonces_app nt l1 l2 :
  GetNonces nt (l1 ++ l2)
  = ((GetNonces nt l1).1 ++ (GetNonces (GetNonces nt l1).2 l2).1,
     (GetNonces (GetNonces nt l1).2 l2).2).
Proof.
  revert nt. induction l1 as [|a l1 IH]; intros nt.
  - simpl. now destruct (GetNonces nt l2).
  - rewrite <- app_comm_cons, !GetNonces_cons, IH. reflexivity.
Qed.

Lemma issued_cons_eq a r rs : issued a ((a, r) :: rs) = r :: issued a rs.
Proof. unfold issued. now rewrite filter_cons_True. Qed.

Lemma issued_cons_ne a b r rs : b ≠ a -> issued a ((b, r) :: rs) = issued a rs.
Proof. intros. unfold issued. now rewrite filter_cons_False. Qed.

Lemma issued_app a rs1 rs2 : issued a (rs1 ++ rs2) = issued a rs1 ++ issued a rs2.
Proof. unfold issued. now rewrite filter_app, fmap_app. Qed.

(** Every call for the account hands out one result. *)
Lemma issued_length nt a accounts :
  length (issued a (GetNonces nt accounts).1)
  = length (filter (λ b, b = a) accounts).
Proof.
  revert nt. induction accounts as [|b rest IH]; intros nt; [reflexivity|].
  rewrite GetNonces_cons. simpl fst.
  destruct (decide (b = a)) as [-> | Hne].
  - rewrite issued_cons_eq, filter_cons_True by reflexivity.
    simpl. now rewrite IH.
  - rewrite issued_cons_ne, filter_cons_False by assumption. apply IH.
Qed.

(** Once the account is cached with value [v], the [j]-th later call for
    it returns [v + 1 + j], wrapped. *)
Lemma issued_cached nt a v accounts j r :
  nonces nt !! a = Some v ->
  issued a (GetNonces nt accounts).1 !! j = Some r ->
  r = ((v + 1 + Z.of_nat j) mod uint64_modulus, None).
Proof.
  revert nt v j. induction accounts as [|b rest IH]; intros nt v j Hv Hj.
  - discriminate.
  - rewrite GetNonces_cons in Hj. simpl fst in Hj.
    destruct (decide (b = a)) as [-> | Hne].
    + rewrite issued_cons_eq in Hj.
      rewrite (GetNonce_cached _ _ _ Hv) in Hj. simpl in Hj.
      destruct j as [|j].
      * simpl in Hj. injection Hj as <-. unfold uint64_incr.
        now rewrite Z.add_0_r.
      * simpl in Hj.
        eapply IH in Hj; [|simpl; apply lookup_insert_eq].
        rewrite Hj, <- Z.add_assoc, uint64_incr_add. do 2 f_equal. lia.
    + rewrite issued_cons_ne in Hj by assumption.
      eapply IH; [|exact Hj]. now rewrite GetNonce_other.
Qed.

(** The result of a call that finds nothing cached is the answer of the
    node, whatever it is. *)
Lemma GetNonce_fresh_result nt a :
  nonces nt !! a = None ->
  (GetNonce nt a).1 = answers (client nt) (length (asked (client nt))) a
  /\ asked (client (GetNonce nt a).2) = asked (client nt) ++ [a].
Proof.
  intros Hn. unfold GetNonce, PendingNonceAt. rewrite Hn.
  destruct (answers (client nt) (length (asked (client nt))) a) as [p [e|]];
    split; reflexivity.
Qed.

(** What a successful call returns is what it leaves in the table. *)
Lemma GetNonce_stored nt a n :
  (GetNonce nt a).1 = (n, None) -> nonces (GetNonce nt a).2 !! a = Some n.
Proof.
  unfold GetNonce. destruct (nonces nt !! a) as [v|] eqn:Hv.
  - simpl. intros [= <-]. apply lookup_insert_eq.
  - destruct (PendingNonceAt (client nt) a) as [[p [e|]] c']; simpl.
    + discriminate.
    + intros [= <-]. apply lookup_insert_eq.
Qed.

(** A call that fails leaves the table as it was. *)
Lemma GetNonce_failed nt a n e :
  (GetNonce nt a).1 = (n, Some e) ->
  nonces nt !! a = None /\ nonces (GetNonce nt a).2 = nonces nt.
Proof.
  unfold GetNonce. destruct (nonces nt !! a) as [v|] eqn:Hv.
  - discriminate.
  - destruct (PendingNonceAt (client nt) a) as [[p [e'|]] c']; simpl.
    + auto.
    + discriminate.
Qed.

Lemma GetNonces_snoc nt l b :
  GetNonces nt (l ++ [b])
  = ((GetNonces nt l).1 ++ [(b, (GetNonce (GetNonces nt l).2 b).1)],
     (GetNonce (GetNonces nt l).2 b).2).
Proof.
  rewrite GetNonces_app. simpl.
  destruct (GetNonce (GetNonces nt l).2 b); reflexivity.
Qed.

(** In a run that starts with an empty table, the entry of an account is
    the last value handed out for it. *)
Lemma stored_is_last_issued c accounts a v :
  nonces (GetNonces (NewNonceTracker c) accounts).2 !! a = Some v ->
  last (issued a (GetNonces (NewNonceTracker c) accounts).1) = Some (v, None).
Proof.
  revert v. induction accounts as [|b l IH] using rev_ind; intros v.
  - simpl. rewrite lookup_empty. discriminate.
  - rewrite GetNonces_snoc. cbn [fst snd].
    set (nt := (GetNonces (NewNonceTracker c) l).2) in *.
    rewrite issued_app.
    destruct (decide (b = a)) as [-> | Hne].
    + rewrite issued_cons_eq. unfold issued at 2. simpl.
      rewrite last_snoc. intros Hv.
      destruct (GetNonce nt a).1 as [n [e|]] eqn:Hr.
      * apply GetNonce_failed in Hr as [Hnone Hsame].
        rewrite Hsame, Hnone in Hv. discriminate.
      * apply GetNonce_stored in Hr. congruence.
    + rewrite issued_cons_ne by assumption. unfold issued at 2. simpl.
      rewrite app_nil_r, GetNonce_other by congruence. apply IH.
Qed.

(** C1 (as amended). From a state in which the account is not cached and
    the node reports the pending nonce [p] without error, the [k]-th call
    for the account returns [p + k - 1] reduced modulo [2^64] and no error,
    whatever calls for other accounts come in between; as long as
    [p + k - 1] fits a [uint64] that is [p + k - 1] itself, so the values
    are [p], [p + 1], [p + 2], ... with no repeat and no gap. *)
Theorem GetNonce_kth_call nt a p c' rest (k : nat) :
  nonces nt !! a = None ->
  PendingNonceAt (client nt) a = (p, None, c') ->
  is_uint64 p ->
  (1 <= k <= length (filter (λ b, b = a) (a :: rest)))%nat ->
  issued a (GetNonces nt (a :: rest)).1 !! (k - 1)%nat
  = Some ((p + Z.of_nat k - 1) mod uint64_modulus, None)
  /\ (p + Z.of_nat k - 1 < uint64_modulus ->
      issued a (GetNonces nt (a :: rest)).1 !! (k - 1)%nat
      = Some (p + Z.of_nat k - 1, None)).
Proof.
  intros Hn Hp Hrange Hk.
  assert (Hmod : issued a (GetNonces nt (a :: rest)).1 !! (k - 1)%nat
                 = Some ((p + Z.of_nat k - 1) mod uint64_modulus, None)).
  { rewrite <- (issued_length nt) in Hk.
    destruct (issued a (GetNonces nt (a :: rest)).1 !! (k - 1)%nat)
      as [r|] eqn:Hr.
    2: { apply lookup_ge_None in Hr. lia. }
    f_equal. revert Hr.
    rewrite GetNonces_cons, (GetNonce_fresh_ok _ _ _ _ Hn Hp). simpl.
    rewrite issued_cons_eq.
    destruct k as [|[|k]]; [lia| |]; simpl.
    - intros [= <-]. f_equal. rewrite Z.mod_small; [lia|].
      unfold is_uint64 in Hrange. lia.
    - intros Hr.
      eapply issued_cached in Hr; [|simpl; apply lookup_insert_eq].
      rewrite Hr. do 2 f_equal. lia. }
  split; [exact Hmod|].
  intros Hsmall. rewrite Hmod, Z.mod_small; [reflexivity|].
  unfold is_uint64 in Hrange. lia.
Qed.

(** The third of four calls, two accounts interleaved. *)
Lemma GetNonce_kth_call_witness :
  issued 7%N
    (GetNonces (NewNonceTracker (constant_client 5)) [7; 7; 3; 7]%N).1
    !! 2%nat
  = Some (7, None).
Proof.
  refine (proj2 (GetNonce_kth_call (NewNonceTracker (constant_client 5)) 7%N 5
                   _ [7; 3; 7]%N 3 _ _ _ _) _).
  - reflexivity.
  - reflexivity.
  - unfold is_uint64. split; [lia | reflexivity].
  - simpl. lia.
  - reflexivity.
Defined.

(** C1 (as stated) fails where the counter wraps: on a node that reports
    the pending nonce [2^64 - 1], the second call returns [0], not
    [2^64]. *)
Lemma GetNonce_second_call_wraps :
  nonces (NewNonceTracker max_nonce_client) !! 7%N = None
  /\ fst (PendingNonceAt (client (NewNonceTracker max_nonce_client)) 7%N)
     = (uint64_modulus - 1, None)
  /\ is_uint64 (uint64_modulus - 1)
  /\ issued 7%N (GetNonces (NewNonceTracker max_nonce_client) [7; 7]%N).1
     !! 1%nat = Some (0, None)
  /\ 0 ≠ (uint64_modulus - 1) + 2 - 1.
Proof.
  repeat split; try reflexivity; try discriminate.
Qed.

(** C8. When nothing is cached for the account and the query for its
    pending nonce fails, [GetNonce] returns what the node returned, error
    included, and leaves the table as it was; the next call for the account
    therefore asks the node again, and returns the answer to that second
    query. *)
Theorem GetNonce_query_failure nt a n e c' :
  nonces nt !! a = None ->
  PendingNonceAt (client nt) a = (n, Some e, c') ->
  (GetNonce nt a).1 = (n, Some e)
  /\ nonces (GetNonce nt a).2 = nonces nt
  /\ nonces (GetNonce nt a).2 !! a = None
  /\ asked (client (GetNonce (GetNonce nt a).2 a).2)
     = asked (client nt) ++ [a; a]
  /\ (GetNonce (GetNonce nt a).2 a).1
     = answers (client nt) (S (length (asked (client nt)))) a.
Proof.
  intros Hn Hp.
  rewrite (GetNonce_fresh_err _ _ _ _ _ Hn Hp). cbn [fst snd nonces].
  split; [reflexivity|]. split; [reflexivity|]. split; [exact Hn|].
  set (nt1 := {| client := c'; nonces := nonces nt |}).
  assert (Hn1 : nonces nt1 !! a = None) by exact Hn.
  destruct (GetNonce_fresh_result nt1 a Hn1) as [Hres Hasked].
  unfold PendingNonceAt in Hp. injection Hp as _ <-.
  rewrite Hres, Hasked. subst nt1. cbn [client asked answers].
  rewrite <- app_assoc, length_app. cbn [length app].
  split; [reflexivity|]. f_equal. lia.
Qed.

(** A first query that fails, and the retry that succeeds with nonce 9. *)
Lemma GetNonce_query_failure_witness :
  (GetNonce (NewNonceTracker (flaky_client 9)) 7%N).1
  = (0, Some (ErrExternal "connection refused"))
  /\ (GetNonce (GetNonce (NewNonceTracker (flaky_client 9)) 7%N).2 7%N).1
     = (9, None).
Proof.
  pose proof (GetNonce_query_failure (NewNonceTracker (flaky_client 9)) 7%N 0
                (ErrExternal "connection refused") _ eq_refl eq_refl) as Hw.
  split; [apply Hw|]. apply Hw.
Defined.

(** C10 (as amended). A call that returns [(n, nil)] for an account leaves
    [n] in the table entry of that account. So, in every run that starts
    from a new tracker, the entry of an account is the value most recently
    returned for it; and a call never lowers the entry of any account that
    is below [2^64 - 1] (from [2^64 - 1] the next call for the account wraps
    the entry to [0]). *)
Theorem NonceTracker_invariant :
  (∀ nt a n,
     (GetNonce nt a).1 = (n, None) -> nonces (GetNonce nt a).2 !! a = Some n)
  /\ (∀ c accounts a v,
        nonces (GetNonces (NewNonceTracker c) accounts).2 !! a = Some v ->
        last (issued a (GetNonces (NewNonceTracker c) accounts).1)
        = Some (v, None))
  /\ (∀ nt a b v,
        nonces nt !! a = Some v ->
        v < uint64_modulus - 1 ->
        ∃ v', nonces (GetNonce nt b).2 !! a = Some v' /\ v <= v').
Proof.
  split; [exact GetNonce_stored|]. split; [exact stored_is_last_issued|].
  intros nt a b v Hv Hlt.
  destruct (decide (a = b)) as [<- | Hne].
  - rewrite (GetNonce_cached _ _ _ Hv). cbn [snd nonces].
    exists (uint64_incr v). split; [apply lookup_insert_eq|].
    unfold uint64_incr.
    destruct (Z_lt_le_dec (v + 1) 0) as [Hneg|Hpos].
    + pose proof (Z.mod_pos_bound (v + 1) _ uint64_modulus_pos). lia.
    + rewrite Z.mod_small; lia.
  - exists v. rewrite GetNonce_other by assumption. split; [exact Hv | lia].
Qed.

(** C10 (as stated) fails where the counter wraps: the entry of the account
    is [2^64 - 1] after the first call and [0] after the second. *)
Lemma NonceTracker_entry_decreases :
  nonces (GetNonces (NewNonceTracker max_nonce_client) [7]%N).2 !! 7%N
  = Some (uint64_modulus - 1)
  /\ nonces (GetNonces (NewNonceTracker max_nonce_client) [7; 7]%N).2 !! 7%N
     = Some 0
  /\ 0 < uint64_modulus - 1.
Proof. repeat split. Qed.

(** X3. Two calls for an account that is not cached yet: only the first
    asks the node, and the two get the reported nonce and its successor. *)
Theorem GetNonce_two_callers nt a p c' :
  nonces nt !! a = None ->
  PendingNonceAt (client nt) a = (p, None, c') ->
  (GetNonces nt [a; a]).1 = [(a, (p, None)); (a, (uint64_incr p, None))]
  /\ asked (client (GetNonces nt [a; a]).2) = asked (client nt) ++ [a].
Proof.
  intros Hn Hp. rewrite !GetNonces_cons.
  rewrite (GetNonce_fresh_ok _ _ _ _ Hn Hp). cbn [fst snd].
  rewrite (GetNonce_cached _ a p) by apply lookup_insert_eq.
  cbn. unfold PendingNonceAt in Hp. injection Hp as _ <-.
  split; reflexivity.
Qed.

Lemma GetNonce_two_callers_witness :
  (GetNonces (NewNonceTracker (constant_client 5)) [7; 7]%N).1
  = [(7%N, (5, None)); (7%N, (6, None))].
Proof.
  exact (proj1 (GetNonce_two_callers (NewNonceTracker (constant_client 5)) 7%N 5
                  _ eq_refl eq_refl)).
Defined.

End NonceProps.

(** * Properties of the queue *)

Module QueueProps.
Import Transfer.

Section WithClient.
Context {C : Type} `{QueueMultichainClient C}.

Lemma Second_pos : 0 < Second.
Proof. reflexivity. Qed.

(** ** Response channels *)

Lemma chan_insert_eq w ch c :
  chan (set_chans w (<[ch := c]> (chans w))) ch = c.
Proof. unfold chan. simpl. now rewrite lookup_insert_eq. Qed.

Lemma chan_insert_ne w ch ch' c :
  ch ≠ ch' -> chan (set_chans w (<[ch := c]> (chans w))) ch' = chan w ch'.
Proof. intros. unfold chan. simpl. now rewrite lookup_insert_ne. Qed.

(** What [resp] does to an open channel: one more response on it, and it
    is closed; nothing else changes. *)
Lemma resp_open t e ch w :
  chan_closed (chan w ch) = false ->
  ∃ w',
    resp t e ch w = Ok w'
    /\ chan w' ch
       = {| received := received (chan w ch) ++ [{| tx := t; err := e |}];
            chan_closed := true |}
    /\ (∀ ch', ch ≠ ch' -> chan w' ch' = chan w ch')
    /\ trace w' = trace w
    /\ now w' = now w.
Proof.
  intros Hopen. unfold resp. rewrite Hopen. eexists. split; [reflexivity|].
  split; [apply chan_insert_eq|]. split; [|split; reflexivity].
  intros ch' Hne. now apply chan_insert_ne.
Qed.


(** ** The select of the poller *)

Lemma ready_fires deadline st t c :
  c ∈ ready deadline st t ->
  fires deadline st t c = Some (wake_time deadline st t).
Proof. unfold ready. rewrite list_elem_of_filter. tauto. Qed.

Lemma ready_head deadline st t :
  ∃ c, head (ready deadline st t) = Some c.
Proof.
  destruct (ready deadline st t) as [|c l] eqn:Hr; [|now exists c].
  exfalso.
  assert (Hall : ∀ c, fires deadline st t c ≠ Some (wake_time deadline st t)).
  { intros c Hc.
    assert (Hin : c ∈ ready deadline st t).
    { unfold ready. rewrite list_elem_of_filter. split; [exact Hc|].
      destruct c; set_solver. }
    rewrite Hr in Hin. inversion Hin. }
  pose proof (Hall CtxDone) as H1. pose proof (Hall TimerFired) as H2.
  pose proof (Hall StopClosed) as H3.
  unfold fires, wake_time in *. destruct st as [s|]; simpl in *.
  - assert (Z.max t deadline ≠ Z.min (Z.min (Z.max t deadline) (t + Second)) (Z.max t s))
      by congruence.
    assert (t + Second ≠ Z.min (Z.min (Z.max t deadline) (t + Second)) (Z.max t s))
      by congruence.
    assert (Z.max t s ≠ Z.min (Z.min (Z.max t deadline) (t + Second)) (Z.max t s))
      by congruence.
    lia.
  - assert (Z.max t deadline ≠ Z.min (Z.max t deadline) (t + Second)) by congruence.
    assert (t + Second ≠ Z.min (Z.max t deadline) (t + Second)) by congruence.
    lia.
Qed.

(** The case taken is one of those that are ready first. *)
Lemma select_case_fires pref deadline st t :
  fires deadline st t (select_case pref (ready deadline st t))
  = Some (wake_time deadline st t).
Proof.
  unfold select_case. destruct (decide (pref ∈ ready deadline st t)) as [Hin|_].
  - now apply ready_fires.
  - destruct (ready_head deadline st t) as [c Hc]. rewrite Hc. simpl.
    apply ready_fires. destruct (ready deadline st t); [discriminate|].
    injection Hc as ->. left.
Qed.

Lemma wake_time_ge deadline st t : t <= wake_time deadline st t.
Proof.
  pose proof Second_pos. unfold wake_time. destruct st; lia.
Qed.

(** ** The poller *)

Lemma same_buffers_refl (q : Queue C) : same_buffers q q.
Proof. repeat split. Qed.

Lemma same_buffers_trans (q1 q2 q3 : Queue C) :
  same_buffers q1 q2 -> same_buffers q2 q3 -> same_buffers q1 q3.
Proof. unfold same_buffers. intuition congruence. Qed.

Lemma Stop_same_buffers (q : Queue C) : same_buffers q (Stop q).
Proof. unfold Stop. destruct (once q); repeat split. Qed.

Lemma Stop_keeps_stop (q : Queue C) : stop q = true -> stop (Stop q) = true.
Proof. unfold Stop. now destruct (once q). Qed.

Lemma stop_arrival_same_buffers (b : bool) (q : Queue C) :
  same_buffers q (if b then Stop q else q).
Proof. destruct b; [apply Stop_same_buffers | apply same_buffers_refl]. Qed.

Lemma stop_arrival_keeps_stop (b : bool) (q : Queue C) :
  stop q = true -> stop (if b then Stop q else q) = true.
Proof. destruct b; [apply Stop_keeps_stop | trivial]. Qed.

Lemma div_Second_step a :
  Second <= a ->
  Z.to_nat ((a - Second) / Second) = (Z.to_nat (a / Second) - 1)%nat
  /\ 1 <= a / Second.
Proof.
  intros Ha. pose proof Second_pos.
  replace (a - Second) with (a + (-1) * Second) by lia.
  rewrite Z.div_add by lia.
  assert (1 <= a / Second) by (apply Z.div_le_lower_bound; lia).
  lia.
Qed.

(** What one [select] of the poller can do, from the case it takes. *)
Lemma select_CtxDone pref deadline st t :
  select_case pref (ready deadline st t) = CtxDone ->
  wake_time deadline st t = Z.max t deadline.
Proof.
  intros Hc. pose proof (select_case_fires pref deadline st t) as Hf.
  rewrite Hc in Hf. simpl in Hf. congruence.
Qed.

Lemma select_TimerFired pref deadline st t :
  select_case pref (ready deadline st t) = TimerFired ->
  wake_time deadline st t = t + Second
  /\ t + Second <= deadline
  /\ (∀ s, st = Some s -> t + Second <= s).
Proof.
  intros Hc. pose proof (select_case_fires pref deadline st t) as Hf.
  rewrite Hc in Hf. simpl in Hf. injection Hf as Hf.
  pose proof Second_pos. split; [congruence|].
  unfold wake_time in Hf. destruct st as [s|].
  - split; [lia|]. intros s' [= <-]. lia.
  - split; [lia|]. discriminate.
Qed.

(** With one iteration for each whole second that is left before the
    deadline, and one more, the poller returns: no error, or the error that
    wraps [ErrTrasactionMissing], and that not before the deadline. It waits
    no longer than the deadline, and leaves the channels and the buffer of
    the queue alone. *)
Lemma checkIfTransactionExists_returns fuel env i deadline chainID txHash
    (q : Queue C) w :
  (Z.to_nat ((deadline - now w) / Second) < fuel)%nat ->
  ∃ e q' w',
    checkIfTransactionExists fuel env i deadline chainID txHash q w
    = Ok (e, q', w')
    /\ (e = None \/ (e = Some (ErrFailedInQueue txHash) /\ deadline <= now w'))
    /\ chans w' = chans w
    /\ same_buffers q q'
    /\ (stop q = true -> stop q' = true)
    /\ now w <= now w' <= Z.max (now w) deadline
    /\ ∃ evs, trace w' = trace w ++ evs /\ Forall is_poll_event evs.
Proof.
  revert i q w. induction fuel as [|fuel IH]; intros i q w Hfuel; [lia|].
  cbn [checkIfTransactionExists].
  set (t := now w) in *.
  set (st := if stop q then Some t else stop_at env).
  set (t' := wake_time deadline st t).
  set (q1 := if stop_called env t' then Stop q else q).
  pose proof (wake_time_ge deadline st t) as Hge. fold t' in Hge.
  pose proof (stop_arrival_same_buffers (stop_called env t') q) as Hsb.
  pose proof (stop_arrival_keeps_stop (stop_called env t') q) as Hks.
  fold q1 in Hsb, Hks.
  destruct (select_case (prefer env i) (ready deadline st t)) eqn:Hsel.
  - apply select_CtxDone in Hsel. fold t' in Hsel.
    eexists _, _, _. split; [reflexivity|]. cbn [now chans trace set_now].
    split; [right; split; [reflexivity|lia]|].
    split; [reflexivity|]. split; [exact Hsb|]. split; [exact Hks|].
    split; [fold t; lia|]. exists []. rewrite app_nil_r. auto.
  - eexists _, _, _. split; [reflexivity|]. cbn [now chans trace set_now].
    split; [left; reflexivity|].
    split; [reflexivity|]. split; [exact Hsb|]. split; [exact Hks|].
    split.
    + fold t. split; [lia|]. subst t'. unfold wake_time. destruct st; lia.
    + exists []. rewrite app_nil_r. auto.
  - apply select_TimerFired in Hsel as (Hw & Hdl & _). fold t' in Hw.
    destruct (TransactionByHash (bc q1) chainID txHash)
      as [[[tr pending] e] cl] eqn:Hcall.
    destruct (div_Second_step (deadline - t)) as [Hdiv Hone]; [lia|].
    assert (Hfuel' : ∀ w2, now w2 = t' ->
              (Z.to_nat ((deadline - now w2) / Second) < fuel)%nat).
    { intros w2 ->. rewrite Hw.
      replace (deadline - (t + Second)) with (deadline - t - Second) by lia.
      lia. }
    assert (Hrec : ∀ w2, now w2 = t' -> chans w2 = chans w ->
              (∃ evs, trace w2 = trace w ++ evs /\ Forall is_poll_event evs) ->
              ∃ e0 q' w',
                checkIfTransactionExists fuel env (S i) deadline chainID txHash
                  (set_bc q1 cl) w2 = Ok (e0, q', w')
                /\ (e0 = None
                    \/ (e0 = Some (ErrFailedInQueue txHash) /\ deadline <= now w'))
                /\ chans w' = chans w
                /\ same_buffers q q'
                /\ (stop q = true -> stop q' = true)
                /\ t <= now w' <= Z.max t deadline
                /\ ∃ evs, trace w' = trace w ++ evs /\ Forall is_poll_event evs).
    { intros w2 Hnow Hch (evs & Htr & Hevs).
      destruct (IH (S i) (set_bc q1 cl) w2 (Hfuel' w2 Hnow))
        as (e0 & q' & w' & Hrun & He & Hc' & Hsb' & Hks' & Ht' & evs' & Htr' & Hevs').
      exists e0, q', w'. split; [exact Hrun|]. split; [exact He|].
      split; [congruence|].
      split; [eapply same_buffers_trans; [exact Hsb|exact Hsb']|].
      split; [intros Hs; apply Hks', Hks, Hs|].
      split; [rewrite Hnow in Ht'; lia|].
      exists (evs ++ evs'). rewrite Htr', Htr, app_assoc.
      split; [reflexivity|]. now apply Forall_app. }
    destruct e as [e|]; [|destruct pending].
    + apply Hrec; [reflexivity|reflexivity|].
      eexists [_; _]. cbn. rewrite <- app_assoc. split; [reflexivity|].
      repeat constructor.
    + apply Hrec; [reflexivity|reflexivity|].
      eexists [_]. cbn. split; [reflexivity|]. repeat constructor.
    + eexists _, _, _. split; [reflexivity|]. cbn [now chans trace set_now log_event].
      split; [left; reflexivity|]. split; [reflexivity|].
      split; [exact Hsb|]. split; [exact Hks|].
      split; [fold t; lia|].
      eexists [_]. split; [reflexivity|]. repeat constructor.
Qed.

(** [waitAfterSend] gives the poller the iterations it needs: it always
    returns. *)
Lemma waitAfterSend_returns env chainID txHash (q : Queue C) w :
  ∃ e q' w',
    waitAfterSend env chainID txHash q w = Ok (e, q', w')
    /\ (e = None
        \/ (e = Some (ErrFailedInQueue txHash) /\ now w + timeout q <= now w'))
    /\ chans w' = chans w
    /\ same_buffers q q'
    /\ (stop q = true -> stop q' = true)
    /\ now w <= now w' <= Z.max (now w) (now w + timeout q)
    /\ ∃ evs, trace w' = trace w ++ evs /\ Forall is_poll_event evs.
Proof.
  unfold waitAfterSend. apply checkIfTransactionExists_returns.
  replace (now w + timeout q - now w) with (timeout q) by lia.
  unfold poll_fuel. lia.
Qed.


(** ** The worker *)

Lemma receive_bc (q q1 : Queue C) entry :
  receive q = Some (entry, q1) ->
  bc q1 = bc q /\ stop q1 = stop q /\ queue_closed q1 = queue_closed q
  /\ timeout q1 = timeout q.
Proof.
  unfold receive. destruct (queue q) as [|e buf], (sendq q) as [|b blocked];
    intros Heq; inversion Heq; subst; repeat split.
Qed.

(** When the [select] of [Run] takes the entry case, the pass is
    [Run_entry] on the entry received. *)
Lemma Run_iteration_entry env (q q1 : Queue C) w entry :
  queue_closed q = false ->
  receive q = Some (entry, q1) ->
  stop q = false \/ run_pick env = CaseEntry ->
  Run_iteration env q w = Run_entry env entry q1 w.
Proof.
  intros Hopen Hrecv Hcase. unfold Run_iteration. rewrite Hopen, Hrecv.
  destruct (stop q); [|reflexivity].
  destruct Hcase as [Hs | ->]; [discriminate|reflexivity].
Qed.


(** C5. When the worker takes an entry whose send operation returns an
    error [e], the pass of the loop delivers on the entry's open channel the
    one response [{nil, e}] and closes the channel; the only event of the
    pass is the call of the send operation, so the collaborator is not
    called and its state is the same; no time is spent waiting; and the loop
    goes on with the rest of the queue. *)
Theorem Run_send_failure env (q q1 : Queue C) w entry t e :
  queue_closed q = false ->
  receive q = Some (entry, q1) ->
  stop q = false \/ run_pick env = CaseEntry ->
  entry_exec entry () = (t, Some e) ->
  chan_closed (chan w (entry_resp entry)) = false ->
  ∃ w',
    Run_iteration env q w = Ok (Continue q1 w')
    /\ chan w' (entry_resp entry)
       = {| received := received (chan w (entry_resp entry))
                        ++ [{| tx := None; err := Some e |}];
            chan_closed := true |}
    /\ trace w' = trace w ++ [EvExec (entry_resp entry)]
    /\ bc q1 = bc q
    /\ now w' = now w.
Proof.
  intros Hopen Hrecv Hcase Hexec Hch.
  rewrite (Run_iteration_entry _ _ _ _ _ Hopen Hrecv Hcase).
  unfold Run_entry. rewrite Hexec.
  destruct (resp_open None (Some e) (entry_resp entry)
              (log_event w (EvExec (entry_resp entry))) Hch)
    as (w' & Hresp & Hc & _ & Htr & Hnow).
  exists w'. split; [destruct t; rewrite Hresp; reflexivity|].
  split; [exact Hc|].
  split; [exact Htr|]. split; [apply (receive_bc _ _ _ Hrecv)|exact Hnow].
Qed.

(** C2 (as amended). When the worker takes an entry whose send operation
    returns a transaction and no error, the pass of the loop polls for the
    confirmation, then delivers on the entry's open channel one response
    and closes the channel. The response always carries the transaction; its
    error is what the poller returned: none, or, not before the timeout has
    elapsed, the error that wraps [ErrTrasactionMissing]. *)
Theorem Run_send_success env (q q1 : Queue C) w entry t :
  queue_closed q = false ->
  receive q = Some (entry, q1) ->
  stop q = false \/ run_pick env = CaseEntry ->
  entry_exec entry () = (Some t, None) ->
  chan_closed (chan w (entry_resp entry)) = false ->
  ∃ e q2 w2 w3,
    waitAfterSend env (big_Int64 (ChainId t)) (Hash t) q1
      (log_event w (EvExec (entry_resp entry))) = Ok (e, q2, w2)
    /\ Run_iteration env q w = Ok (Continue q2 w3)
    /\ chan w3 (entry_resp entry)
       = {| received := received (chan w (entry_resp entry))
                        ++ [{| tx := Some t; err := e |}];
            chan_closed := true |}
    /\ (e = None
        \/ (e = Some (ErrFailedInQueue (Hash t))
            /\ Unwrap (ErrFailedInQueue (Hash t)) = Some ErrTrasactionMissing
            /\ now w + timeout q <= now w3)).
Proof.
  intros Hopen Hrecv Hcase Hexec Hch.
  rewrite (Run_iteration_entry _ _ _ _ _ Hopen Hrecv Hcase).
  unfold Run_entry. rewrite Hexec.
  set (w1 := log_event w (EvExec (entry_resp entry))).
  destruct (waitAfterSend_returns env (big_Int64 (ChainId t)) (Hash t) q1 w1)
    as (e & q2 & w2 & Hwait & He & Hchans & _ & _ & Hnow & _).
  assert (Hch2 : chan_closed (chan w2 (entry_resp entry)) = false).
  { unfold chan in *. now rewrite Hchans. }
  destruct (resp_open (Some t) e (entry_resp entry) w2 Hch2)
    as (w3 & Hresp & Hc & _ & _ & Hnow3).
  exists e, q2, w2, w3. split; [exact Hwait|].
  rewrite Hwait. cbn. rewrite Hresp. cbn. split; [reflexivity|].
  split.
  - rewrite Hc. unfold chan. now rewrite Hchans.
  - destruct He as [-> | [-> Hlate]]; [left; reflexivity|right].
    split; [reflexivity|]. split; [reflexivity|].
    destruct (receive_bc _ _ _ Hrecv) as (_ & _ & _ & Htmo).
    rewrite Hnow3, <- Htmo. exact Hlate.
Qed.

(** ** Shutdown *)

(** Draining entries whose channels are open and all different gives each
    of them the closed-queue response, and touches nothing else. *)
Lemma drain_delivers entries w :
  NoDup (entry_resp <$> entries) ->
  (∀ entry, entry ∈ entries -> chan_closed (chan w (entry_resp entry)) = false) ->
  ∃ w',
    drain entries w = Ok w'
    /\ (∀ entry, entry ∈ entries ->
         chan w' (entry_resp entry)
         = {| received := received (chan w (entry_resp entry))
                          ++ [{| tx := None; err := Some ErrQueueClosed |}];
              chan_closed := true |})
    /\ (∀ ch, ch ∉ (entry_resp <$> entries) -> chan w' ch = chan w ch)
    /\ trace w' = trace w
    /\ now w' = now w.
Proof.
  revert w. induction entries as [|entry rest IH]; intros w Hnd Hopen.
  - exists w. split; [reflexivity|]. split; [intros ? Hin; inversion Hin|].
    auto.
  - rewrite fmap_cons in Hnd. apply NoDup_cons in Hnd as [Hfresh Hnd].
    destruct (resp_open None (Some ErrQueueClosed) (entry_resp entry) w)
      as (w1 & Hresp & Hc & Hother & Htr & Hnow).
    { apply Hopen. left. }
    destruct (IH w1 Hnd) as (w' & Hdrain & Hdel & Hrest & Htr' & Hnow').
    { intros entry' Hin. rewrite Hother.
      - apply Hopen. now right.
      - intros Heq. apply Hfresh. rewrite Heq.
        apply list_elem_of_fmap. now exists entry'. }
    exists w'. cbn [drain]. rewrite Hresp. cbn. split; [exact Hdrain|].
    split; [|split; [|split; congruence]].
    + intros entry' Hin. apply elem_of_cons in Hin as [-> | Hin].
      * rewrite Hrest by exact Hfresh. exact Hc.
      * rewrite (Hdel _ Hin), Hother; [reflexivity|].
        intros Heq. apply Hfresh. rewrite Heq.
        apply list_elem_of_fmap. now exists entry'.
    + intros ch Hch. cbn [fmap list_fmap] in Hch.
      apply not_elem_of_cons in Hch as [Hne Hch].
      rewrite (Hrest _ Hch). apply Hother. congruence.
Qed.


(** ** The queue after a shutdown was requested *)

Lemma resp_trace t e ch w w' : resp t e ch w = Ok w' -> trace w' = trace w.
Proof.
  unfold resp. destruct (chan_closed (chan w ch)); [discriminate|].
  now intros [= <-].
Qed.

Lemma drain_trace entries w w' : drain entries w = Ok w' -> trace w' = trace w.
Proof.
  revert w. induction entries as [|entry rest IH]; intros w; cbn [drain].
  - now intros [= <-].
  - destruct (resp None (Some ErrQueueClosed) (entry_resp entry) w)
      as [w1| |] eqn:Hresp; cbn; try discriminate.
    intros Hd. rewrite (IH _ Hd). now apply resp_trace in Hresp.
Qed.

(** The worker takes the entries in the order in which the callers sent
    them: the buffer first, the parked senders behind it. *)
Lemma receive_order (q q1 : Queue C) entry :
  receive q = Some (entry, q1) ->
  queue q ++ sendq q = entry :: (queue q1 ++ sendq q1).
Proof.
  unfold receive. destruct (queue q) as [|e buf], (sendq q) as [|b blocked];
    intros Heq; inversion Heq; subst; cbn.
  - reflexivity.
  - now rewrite app_nil_r.
  - now rewrite <- app_assoc.
Qed.

(** What a pass that takes an entry leaves behind, when it returns. *)
Lemma Run_entry_trace env entry (q1 : Queue C) w (st : Step C) :
  Run_entry env entry q1 w = Ok st ->
  ∃ q2 w3 evs,
    st = Continue q2 w3
    /\ same_buffers q1 q2
    /\ (stop q1 = true -> stop q2 = true)
    /\ trace w3 = trace w ++ EvExec (entry_resp entry) :: evs
    /\ Forall is_poll_event evs.
Proof.
  unfold Run_entry.
  set (w1 := log_event w (EvExec (entry_resp entry))).
  destruct (entry_exec entry ()) as [[t|] [e|]].
  - destruct (resp None (Some e) (entry_resp entry) w1) as [w2| |] eqn:Hresp;
      cbn; try discriminate.
    intros [= <-]. exists q1, w2, []. apply resp_trace in Hresp.
    split; [reflexivity|]. split; [apply same_buffers_refl|].
    split; [trivial|]. split; [exact Hresp|constructor].
  - destruct (waitAfterSend_returns env (big_Int64 (ChainId t)) (Hash t) q1 w1)
      as (e & q2 & w2 & Hwait & _ & _ & Hsb & Hks & _ & evs & Htr & Hevs).
    rewrite Hwait. cbn.
    destruct (resp (Some t) e (entry_resp entry) w2) as [w3| |] eqn:Hresp;
      cbn; try discriminate.
    intros [= <-]. exists q2, w3, evs. apply resp_trace in Hresp.
    split; [reflexivity|]. split; [exact Hsb|]. split; [exact Hks|].
    split; [|exact Hevs].
    rewrite Hresp, Htr. subst w1. cbn. now rewrite <- app_assoc.
  - destruct (resp None (Some e) (entry_resp entry) w1) as [w2| |] eqn:Hresp;
      cbn; try discriminate.
    intros [= <-]. exists q1, w2, []. apply resp_trace in Hresp.
    split; [reflexivity|]. split; [apply same_buffers_refl|].
    split; [trivial|]. split; [exact Hresp|constructor].
  - discriminate.
Qed.

Lemma poll_events_no_exec ch evs : Forall is_poll_event evs -> EvExec ch ∉ evs.
Proof.
  intros Hall Hin. rewrite Forall_forall in Hall.
  exact (Hall (EvExec ch) Hin).
Qed.

(** Nothing the callers or the worker do brings such a channel in. *)
Lemma never_accepted_act ch a (s : System C) :
  never_accepted ch s -> never_accepted ch (act a s).
Proof.
  intros (Hstop & Hbuf & Htr). unfold act.
  destruct a as [exec ch'| |env].
  - unfold TransactionEnqueue. rewrite Hstop.
    destruct (worker s); repeat split; assumption.
  - destruct (Stop_same_buffers (sys_queue s)) as (Hq & Hs & _).
    destruct (worker s); [| |repeat split; assumption];
      (unfold never_accepted; cbn; rewrite Hq, Hs;
       split; [now apply Stop_keeps_stop|]; split; assumption).
  - destruct (worker s); [|repeat split; assumption..].
    assert (Hcrash : never_accepted ch
                      {| sys_queue := sys_queue s; sys_world := sys_world s;
                         worker := Crashed |})
      by (repeat split; assumption).
    assert (Hsame : never_accepted ch s) by (repeat split; assumption).
    unfold Run_iteration.
    destruct (queue_closed (sys_queue s)); [exact Hcrash|].
    rewrite Hstop.
    assert (Hstopped : ∀ r, Run_stop (sys_queue s) (sys_world s) = r ->
              never_accepted ch
                match r with
                | Ok (Continue q1 w1) =>
                    {| sys_queue := q1; sys_world := w1; worker := Looping |}
                | Ok (Return q1 w1) =>
                    {| sys_queue := q1; sys_world := w1; worker := Finished |}
                | Ok Idle => s
                | _ => {| sys_queue := sys_queue s; sys_world := sys_world s;
                          worker := Crashed |}
                end).
    { intros r <-. unfold Run_stop.
      destruct (sendq (sys_queue s)); [|exact Hcrash].
      destruct (drain (queue (sys_queue s)) (sys_world s)) as [w1| |] eqn:Hd;
        cbn; try exact Hcrash.
      apply drain_trace in Hd. unfold never_accepted. cbn. rewrite Hd.
      split; [exact Hstop|]. split; [apply not_elem_of_nil|exact Htr]. }
    assert (Hentry : ∀ entry q1 r,
              receive (sys_queue s) = Some (entry, q1) ->
              Run_entry env entry q1 (sys_world s) = r ->
              never_accepted ch
                match r with
                | Ok (Continue q1 w1) =>
                    {| sys_queue := q1; sys_world := w1; worker := Looping |}
                | Ok (Return q1 w1) =>
                    {| sys_queue := q1; sys_world := w1; worker := Finished |}
                | Ok Idle => s
                | _ => {| sys_queue := sys_queue s; sys_world := sys_world s;
                          worker := Crashed |}
                end).
    { intros entry q1 r Hrecv Hr.
      destruct r as [st| |]; try exact Hcrash.
      pose proof Hr as Hrun.
      apply Run_entry_trace in Hrun
        as (q2 & w3 & evs & -> & (Hq & Hs & _) & Hks & Htr3 & Hevs).
      pose proof (receive_order _ _ _ Hrecv) as Hord.
      rewrite Hord, fmap_cons in Hbuf.
      apply not_elem_of_cons in Hbuf as [Hne Hbuf].
      destruct (receive_bc _ _ _ Hrecv) as (_ & Hstop1 & _).
      unfold never_accepted. cbn. rewrite Hq, Hs, Htr3.
      split; [apply Hks; congruence|]. split; [exact Hbuf|].
      rewrite elem_of_app, elem_of_cons.
      intros [Hin|[Heq|Hin]].
      - now apply Htr.
      - apply Hne. congruence.
      - now apply (poll_events_no_exec ch evs). }
    destruct (receive (sys_queue s)) as [[entry q1]|] eqn:Hrecv.
    + destruct (run_pick env).
      * now apply Hstopped.
      * now apply (Hentry entry q1).
    + now apply Hstopped.
Qed.

Lemma never_accepted_acts ch l (s : System C) :
  never_accepted ch s -> never_accepted ch (acts l s).
Proof.
  revert s. induction l as [|a l IH]; intros s Hs; [exact Hs|].
  cbn. apply IH. now apply never_accepted_act.
Qed.

(** C4. Once the stop signal is triggered, a call of [TransactionEnqueue]
    returns [ErrQueueClosed] and leaves the queue as it is: the entry goes
    neither into the buffer nor among the parked senders. Whatever the
    callers and the worker do afterwards, no entry that answers on the
    channel of the refused call is ever in the queue and the send operation
    for that channel is never called. (The channel names the refused item:
    it is taken not to be the channel of an entry accepted earlier.) *)
Theorem TransactionEnqueue_after_stop exec ch (s : System C)
    (later : list Action) :
  stop (sys_queue s) = true ->
  ch ∉ (entry_resp <$> (queue (sys_queue s) ++ sendq (sys_queue s))) ->
  EvExec ch ∉ trace (sys_world s) ->
  TransactionEnqueue exec ch (sys_queue s)
  = Ok (Returned (Some ErrQueueClosed), sys_queue s)
  /\ (ch ∉ entry_resp
            <$> (queue (sys_queue (acts (DoEnqueue exec ch :: later) s))
                 ++ sendq (sys_queue (acts (DoEnqueue exec ch :: later) s))))
  /\ (EvExec ch ∉ trace (sys_world (acts (DoEnqueue exec ch :: later) s))).
Proof.
  intros Hstop Hbuf Htr. split.
  - unfold TransactionEnqueue. now rewrite Hstop.
  - apply (never_accepted_acts ch (DoEnqueue exec ch :: later) s).
    repeat split; assumption.
Qed.

(** ** One result for every accepted item *)

(** A pass that takes an entry whose send operation returns a transaction
    or an error, and whose channel is open, puts one response on that
    channel, closes it, and leaves the other channels alone. *)
Lemma Run_entry_delivers env entry (q1 : Queue C) w :
  entry_exec entry () ≠ (None, None) ->
  chan_closed (chan w (entry_resp entry)) = false ->
  ∃ q2 w3 r,
    Run_entry env entry q1 w = Ok (Continue q2 w3)
    /\ chan w3 (entry_resp entry)
       = {| received := received (chan w (entry_resp entry)) ++ [r];
            chan_closed := true |}
    /\ (∀ ch', entry_resp entry ≠ ch' -> chan w3 ch' = chan w ch')
    /\ same_buffers q1 q2
    /\ (stop q1 = true -> stop q2 = true).
Proof.
  intros Hexec Hch. unfold Run_entry.
  set (w1 := log_event w (EvExec (entry_resp entry))).
  assert (Hfail : ∀ e,
            ∃ q2 w3 r,
              (w2 ← resp None (Some e) (entry_resp entry) w1;
               Ok (Continue q1 w2)) = Ok (Continue q2 w3)
              /\ chan w3 (entry_resp entry)
                 = {| received := received (chan w (entry_resp entry)) ++ [r];
                      chan_closed := true |}
              /\ (∀ ch', entry_resp entry ≠ ch' -> chan w3 ch' = chan w ch')
              /\ same_buffers q1 q2
              /\ (stop q1 = true -> stop q2 = true)).
  { intros e.
    destruct (resp_open None (Some e) (entry_resp entry) w1 Hch)
      as (w2 & Hresp & Hc & Hother & _).
    exists q1, w2, {| tx := None; err := Some e |}.
    rewrite Hresp. split; [reflexivity|]. split; [exact Hc|].
    split; [exact Hother|]. split; [apply same_buffers_refl|trivial]. }
  destruct (entry_exec entry ()) as [[t|] [e|]].
  - apply (Hfail e).
  - destruct (waitAfterSend_returns env (big_Int64 (ChainId t)) (Hash t) q1 w1)
      as (e & q2 & w2 & Hwait & _ & Hchans & Hsb & Hks & _).
    assert (Hsame : ∀ ch, chan w2 ch = chan w ch).
    { intros ch. unfold chan. now rewrite Hchans. }
    assert (Hch2 : chan_closed (chan w2 (entry_resp entry)) = false)
      by now rewrite Hsame.
    destruct (resp_open (Some t) e (entry_resp entry) w2 Hch2)
      as (w3 & Hresp & Hc & Hother & _).
    exists q2, w3, {| tx := Some t; err := e |}.
    rewrite Hwait. cbn. rewrite Hresp. cbn. split; [reflexivity|].
    split; [now rewrite Hc, Hsame|].
    split; [intros ch' Hne; now rewrite Hother, Hsame|].
    split; [exact Hsb|exact Hks].
  - apply (Hfail e).
  - now contradiction Hexec.
Qed.

(** After a shutdown was requested, the worker returns within one pass for
    each buffered entry and one more, and by then every buffered entry has
    one more response on its channel, which is closed: the one of its own
    pass, or the closed-queue response of the drain. *)
Lemma Run_delivers_all envs (q : Queue C) w :
  queue_closed q = false ->
  sendq q = [] ->
  stop q = true ->
  NoDup (entry_resp <$> queue q) ->
  (∀ entry, entry ∈ queue q ->
     chan_closed (chan w (entry_resp entry)) = false) ->
  (∀ entry, entry ∈ queue q -> entry_exec entry () ≠ (None, None)) ->
  (length (queue q) < length envs)%nat ->
  ∃ q' w',
    Run envs q w = Ok (Return q' w')
    /\ (∀ entry, entry ∈ queue q ->
         ∃ r, chan w' (entry_resp entry)
              = {| received := received (chan w (entry_resp entry)) ++ [r];
                   chan_closed := true |})
    /\ (∀ ch, ch ∉ (entry_resp <$> queue q) -> chan w' ch = chan w ch).
Proof.
  revert q w. induction envs as [|env rest IH];
    intros q w Hopen Hsendq Hstop Hnd Hchans Hexecs Hlen; [cbn in Hlen; lia|].
  assert (Hdrain : ∃ q' w',
            (s ← Run_stop q w;
             match s with
             | Continue q1 w1 => Run rest q1 w1
             | Return q1 w1 => Ok (Return q1 w1)
             | Idle => Ok Idle
             end) = Ok (Return q' w')
            /\ (∀ entry, entry ∈ queue q ->
                 ∃ r, chan w' (entry_resp entry)
                      = {| received := received (chan w (entry_resp entry)) ++ [r];
                           chan_closed := true |})
            /\ (∀ ch, ch ∉ (entry_resp <$> queue q) -> chan w' ch = chan w ch)).
  { unfold Run_stop. rewrite Hsendq.
    destruct (drain_delivers (queue q) w Hnd Hchans)
      as (w' & Hd & Hdel & Hrest & _).
    rewrite Hd. cbn. eexists _, w'. split; [reflexivity|].
    split; [|exact Hrest]. intros entry Hin. eexists. now apply Hdel. }
  cbn [Run]. unfold Run_iteration. rewrite Hopen, Hstop.
  unfold receive. rewrite Hsendq.
  destruct (queue q) as [|entry buf] eqn:Hq; [exact Hdrain|].
  destruct (run_pick env); [exact Hdrain|]. clear Hdrain.
  rewrite fmap_cons in Hnd. apply NoDup_cons in Hnd as [Hfresh Hnd].
  destruct (Run_entry_delivers env entry (set_queue q buf []) w)
    as (q2 & w3 & r & Hrun & Hc & Hother & (Hq2 & Hs2 & _ & Hcl2 & _) & Hks).
  { apply Hexecs. left. }
  { apply Hchans. left. }
  cbn in Hq2, Hs2, Hcl2.
  assert (Hnot : ∀ entry', entry' ∈ buf -> entry_resp entry ≠ entry_resp entry').
  { intros entry' Hin Heq. apply Hfresh. rewrite Heq.
    apply list_elem_of_fmap. now exists entry'. }
  destruct (IH q2 w3) as (q' & w' & Hrest & Hdel & Hout).
  - congruence.
  - exact Hs2.
  - apply Hks. exact Hstop.
  - now rewrite Hq2.
  - rewrite Hq2. intros entry' Hin. rewrite Hother by now apply Hnot.
    apply Hchans. now right.
  - rewrite Hq2. intros entry' Hin. apply Hexecs. now right.
  - rewrite Hq2. cbn in Hlen. lia.
  - exists q', w'. rewrite Hrun. cbn. split; [exact Hrest|].
    rewrite Hq2 in Hdel, Hout. split.
    + intros entry' Hin. apply elem_of_cons in Hin as [-> | Hin].
      * exists r. now rewrite (Hout _ Hfresh).
      * destruct (Hdel _ Hin) as (r' & Hr'). exists r'.
        now rewrite Hr', Hother by now apply Hnot.
    + intros ch Hch. cbn [fmap list_fmap] in Hch.
      apply not_elem_of_cons in Hch as [Hne Hch].
      rewrite (Hout _ Hch). apply Hother. congruence.
Qed.

(** X1. Every entry that is in the buffer when a shutdown has been
    requested gets exactly one response on its channel, and the worker
    returns: with entries that answer on unused channels, all different,
    whose send operations return a transaction or an error, and no caller
    parked in a send, [Run] returns within one pass for each entry and one
    more, whichever case each [select] takes. *)
Theorem Run_answers_every_entry envs (q : Queue C) w :
  queue_closed q = false ->
  sendq q = [] ->
  stop q = true ->
  NoDup (entry_resp <$> queue q) ->
  (∀ entry, entry ∈ queue q -> chan w (entry_resp entry) = fresh_chan) ->
  (∀ entry, entry ∈ queue q -> entry_exec entry () ≠ (None, None)) ->
  (length (queue q) < length envs)%nat ->
  ∃ q' w',
    Run envs q w = Ok (Return q' w')
    /\ (∀ entry, entry ∈ queue q ->
         ∃ r, chan w' (entry_resp entry)
              = {| received := [r]; chan_closed := true |}).
Proof.
  intros Hopen Hsendq Hstop Hnd Hfresh Hexecs Hlen.
  destruct (Run_delivers_all envs q w Hopen Hsendq Hstop Hnd) as
    (q' & w' & Hrun & Hdel & _); [|assumption..|].
  { intros entry Hin. now rewrite (Hfresh entry Hin). }
  exists q', w'. split; [exact Hrun|].
  intros entry Hin. destruct (Hdel entry Hin) as (r & Hr).
  exists r. now rewrite Hr, (Hfresh entry Hin).
Qed.

(** [Stop] is idempotent: a second call changes nothing. *)
Theorem Stop_idempotent (q : Queue C) : Stop (Stop q) = Stop q.
Proof. unfold Stop. destruct (once q) eqn:Ho; [now rewrite Ho|reflexivity]. Qed.


(** X4. The queue is first in, first out: an accepted entry goes behind
    all those that wait (the buffer, then the parked senders), and the
    worker takes the one in front. The buffer is full whenever a sender is
    parked. *)
Theorem queue_is_fifo exec ch (q : Queue C) :
  stop q = false ->
  queue_closed q = false ->
  sendq q = [] \/ length (queue q) = size q ->
  ∃ r q',
    TransactionEnqueue exec ch q = Ok (r, q')
    /\ queue q' ++ sendq q'
       = (queue q ++ sendq q) ++ [{| entry_exec := exec; entry_resp := ch |}]
    /\ (∀ entry q1, receive q' = Some (entry, q1) ->
         queue q' ++ sendq q' = entry :: (queue q1 ++ sendq q1)).
Proof.
  intros Hstop Hopen Hfull. unfold TransactionEnqueue. rewrite Hstop, Hopen.
  destruct (length (queue q) <? size q)%nat eqn:Hroom.
  - eexists _, _. split; [reflexivity|].
    split; [cbn|intros entry q1; apply receive_order].
    destruct Hfull as [-> | Hlen].
    + now rewrite !app_nil_r.
    + apply Nat.ltb_lt in Hroom. lia.
  - eexists _, _. split; [reflexivity|].
    split; [cbn|intros entry q1; apply receive_order].
    now rewrite app_assoc.
Qed.

End WithClient.

(** ** Result *)

(** C9 (as amended). [Result] of a response in which both the transaction
    and the error are nil is [(nil, ErrQueueMissingResult)], not
    [(nil, nil)]. Of every other response it is the stored transaction and
    the stored error, unchanged; so it returns [ErrQueueMissingResult] for
    such a response only when that is the error the response stores. *)
Theorem Result_missing :
  Result {| tx := None; err := None |} = (None, Some ErrQueueMissingResult)
  /\ (∀ qr, tx qr ≠ None \/ err qr ≠ None -> Result qr = (tx qr, err qr))
  /\ (∀ qr, tx qr ≠ None \/ err qr ≠ None ->
            ((Result qr).2 = Some ErrQueueMissingResult
             <-> err qr = Some ErrQueueMissingResult)).
Proof.
  split; [reflexivity|].
  assert (Hsame : ∀ qr, tx qr ≠ None \/ err qr ≠ None ->
                        Result qr = (tx qr, err qr)).
  { intros [[t|] [e|]] Hsome; try reflexivity.
    destruct Hsome as [Hn|Hn]; now contradiction Hn. }
  split; [exact Hsame|].
  intros qr Hsome. now rewrite (Hsame qr Hsome).
Qed.

(** C9 (as stated) fails for a response that stores the sentinel itself.
    The worker builds one when a send operation returns that error: the
    response is not the empty one, and [Result] returns
    [ErrQueueMissingResult] for it. *)
Lemma Result_of_stored_sentinel :
  delivered (one_pass always_pending send_missing (quiet TimerFired)) 1
  = Some ({| received := [{| tx := None; err := Some ErrQueueMissingResult |}];
             chan_closed := true |}, 0)
  /\ err {| tx := None; err := Some ErrQueueMissingResult |} ≠ None
  /\ (Result {| tx := None; err := Some ErrQueueMissingResult |}).2
     = Some ErrQueueMissingResult.
Proof. split; [reflexivity|]. split; [discriminate|reflexivity]. Qed.

(** ** The scenarios *)

(** C6 (as amended). Capacity 1, timeout 2 seconds, a collaborator that
    reports the transaction pending for its first three polls, a send
    operation that succeeds with hash [0xAA], and no shutdown: whichever
    case the poller takes when the second tick and the deadline come
    together, the caller has its one response when 2 seconds have passed,
    and the response carries the transaction [0xAA] together with the error
    that wraps [ErrTrasactionMissing]. *)
Theorem scenario_three_pending_polls env :
  stop_at env = None ->
  delivered (one_pass {| pending_left := 3 |} send_ok env) 1
  = Some ({| received := [{| tx := Some txAA;
                             err := Some (ErrFailedInQueue (Hash txAA)) |}];
             chan_closed := true |}, 2 * Second).
Proof.
  destruct env as [pick st pref]. cbn [stop_at]. intros ->.
  vm_compute.
  destruct (pref 0%nat), (pref 1%nat), (pref 2%nat); reflexivity.
Qed.

Lemma scenario_three_pending_polls_witness :
  delivered (one_pass {| pending_left := 3 |} send_ok (quiet StopClosed)) 1
  = Some ({| received := [{| tx := Some txAA;
                             err := Some (ErrFailedInQueue (Hash txAA)) |}];
             chan_closed := true |}, 2 * Second).
Proof. exact (scenario_three_pending_polls (quiet StopClosed) eq_refl). Defined.

(** C6 (as stated) fails: even when every [select] that has the choice
    takes the timer, the pass ends at 2 seconds, not 3, and the response has
    an error. *)
Lemma scenario_three_pending_polls_times_out :
  delivered (one_pass {| pending_left := 3 |} send_ok (quiet TimerFired)) 1
  = Some ({| received := [{| tx := Some txAA;
                             err := Some (ErrFailedInQueue 170) |}];
             chan_closed := true |}, 2 * Second)
  /\ Result {| tx := Some txAA; err := Some (ErrFailedInQueue 170) |}
     = (Some txAA, Some (ErrFailedInQueue 170))
  /\ Some (ErrFailedInQueue 170) ≠ None
  /\ 2 * Second ≠ 3 * Second.
Proof.
  split; [reflexivity|]. split; [reflexivity|]. split; discriminate.
Qed.

(** C2 (as stated) fails on a timeout: with a collaborator that reports the
    transaction pending for ever, the response that the caller gets when the
    2 seconds have elapsed has the error and the transaction handle. *)
Lemma timeout_response_has_handle :
  delivered (one_pass always_pending send_ok (quiet CtxDone)) 1
  = Some ({| received := [{| tx := Some txAA;
                             err := Some (ErrFailedInQueue 170) |}];
             chan_closed := true |}, 2 * Second)
  /\ tx {| tx := Some txAA; err := Some (ErrFailedInQueue 170) |} ≠ None.
Proof. split; [reflexivity|discriminate]. Qed.

(** The same setup with a collaborator that reports the transaction
    pending for ever, and no shutdown: the caller has its one response when
    the 2 seconds of the timeout have passed, with the error that wraps
    [ErrTrasactionMissing], and with the transaction. *)
Theorem scenario_always_pending env :
  stop_at env = None ->
  delivered (one_pass always_pending send_ok env) 1
  = Some ({| received := [{| tx := Some txAA;
                             err := Some (ErrFailedInQueue (Hash txAA)) |}];
             chan_closed := true |}, 2 * Second).
Proof.
  destruct env as [pick st pref]. cbn [stop_at]. intros ->.
  vm_compute.
  destruct (pref 0%nat), (pref 1%nat), (pref 2%nat); reflexivity.
Qed.

Lemma scenario_always_pending_witness :
  delivered (one_pass always_pending send_ok (quiet TimerFired)) 1
  = Some ({| received := [{| tx := Some txAA;
                             err := Some (ErrFailedInQueue (Hash txAA)) |}];
             chan_closed := true |}, 2 * Second).
Proof. exact (scenario_always_pending (quiet TimerFired) eq_refl). Defined.

(** ** Instances *)

(** A send operation that fails, on the queue with one entry. *)
Lemma Run_send_failure_witness :
  ∃ w',
    Run_iteration (quiet TimerFired) (one_entry always_pending send_fails) world0
    = Ok (Continue (NewQueue 1 always_pending (2 * Second)) w')
    /\ received (chan w' 1)
       = [{| tx := None; err := Some (ErrExternal "nonce too low") |}]
    /\ trace w' = [EvExec 1].
Proof.
  destruct (Run_send_failure (quiet TimerFired)
              (one_entry always_pending send_fails)
              (NewQueue 1 always_pending (2 * Second)) world0
              {| entry_exec := send_fails; entry_resp := 1 |}
              None (ErrExternal "nonce too low")
              eq_refl eq_refl (or_introl eq_refl) eq_refl eq_refl)
    as (w' & Hrun & Hch & Htr & _).
  exists w'. split; [exact Hrun|]. cbn in Hch.
  split; [now rewrite Hch | exact Htr].
Defined.

(** A send operation that succeeds, with a collaborator that confirms at the
    first poll. *)
Lemma Run_send_success_witness :
  ∃ e q2 w3,
    Run_iteration (quiet TimerFired)
      (one_entry {| pending_left := 0 |} send_ok) world0
    = Ok (Continue q2 w3)
    /\ received (chan w3 1) = [{| tx := Some txAA; err := e |}].
Proof.
  destruct (Run_send_success (quiet TimerFired)
              (one_entry {| pending_left := 0 |} send_ok)
              (NewQueue 1 {| pending_left := 0 |} (2 * Second)) world0
              {| entry_exec := send_ok; entry_resp := 1 |} txAA
              eq_refl eq_refl (or_introl eq_refl) eq_refl eq_refl)
    as (e & q2 & w2 & w3 & _ & Hrun & Hch & _).
  exists e, q2, w3. cbn in Hch. split; [exact Hrun | now rewrite Hch].
Defined.


(** An enqueue on the stopped queue, followed by two passes of the worker
    and one more attempt. *)
Lemma TransactionEnqueue_after_stop_witness :
  TransactionEnqueue send_ok 5 two_left
  = Ok (Returned (Some ErrQueueClosed), two_left).
Proof.
  refine (proj1 (TransactionEnqueue_after_stop send_ok 5
                   {| sys_queue := two_left; sys_world := world0;
                      worker := Looping |}
                   [DoRun (quiet TimerFired); DoEnqueue send_ok 5;
                    DoRun (quiet TimerFired)]
                   eq_refl _ _)).
  - compute_done.
  - apply not_elem_of_nil.
Defined.


(** The stopped queue with two entries, and three passes of the worker. *)
Lemma Run_answers_every_entry_witness :
  ∃ q' w',
    Run [quiet TimerFired; quiet TimerFired; quiet TimerFired] two_left world0
    = Ok (Return q' w')
    /\ (∀ entry, entry ∈ queue two_left ->
         ∃ r, chan w' (entry_resp entry)
              = {| received := [r]; chan_closed := true |}).
Proof.
  apply (Run_answers_every_entry
           [quiet TimerFired; quiet TimerFired; quiet TimerFired]
           two_left world0 eq_refl eq_refl eq_refl).
  - compute_done.
  - intros entry _. reflexivity.
  - intros entry Hin. cbn in Hin.
    apply elem_of_cons in Hin as [-> | Hin]; [discriminate|].
    apply elem_of_cons in Hin as [-> | Hin]; [discriminate|].
    inversion Hin.
  - cbn. lia.
Defined.

(** A second entry sent to the queue of capacity 1 that holds one. *)
Lemma queue_is_fifo_witness :
  ∃ r q',
    TransactionEnqueue send_fails 2 (one_entry always_pending send_ok)
    = Ok (r, q')
    /\ queue q' ++ sendq q'
       = [ {| entry_exec := send_ok; entry_resp := 1 |};
           {| entry_exec := send_fails; entry_resp := 2 |} ].
Proof.
  destruct (queue_is_fifo send_fails 2 (one_entry always_pending send_ok)
              eq_refl eq_refl (or_introl eq_refl))
    as (r & q' & Henq & Hord & _).
  exists r, q'. split; assumption.
Defined.

End QueueProps.

(** * Invariants of the queue *)

Module QueueInvariants.
Import Transfer QueueProps.

Section WithClient.
Context {C : Type} `{QueueMultichainClient C}.

(** ** Capacity *)

Lemma buffer_ok_enqueue exec ch (q q' : Queue C) r :
  buffer_ok q ->
  TransactionEnqueue exec ch q = Ok (r, q') ->
  buffer_ok q' /\ size q' = size q.
Proof.
  intros [Hle Hfull]. unfold TransactionEnqueue.
  destruct (stop q); [intros [= <- <-]; repeat split; assumption|].
  destruct (queue_closed q); [discriminate|].
  destruct (length (queue q) <? size q)%nat eqn:Hroom; intros [= <- <-].
  - apply Nat.ltb_lt in Hroom. split; [|reflexivity]. split; cbn.
    + rewrite length_app. cbn. lia.
    + intros Hs. specialize (Hfull Hs). lia.
  - apply Nat.ltb_ge in Hroom. split; [|reflexivity]. split; cbn; [lia|].
    intros _. lia.
Qed.

Lemma buffer_ok_receive (q q1 : Queue C) entry :
  buffer_ok q ->
  receive q = Some (entry, q1) ->
  buffer_ok q1 /\ size q1 = size q.
Proof.
  intros [Hle Hfull]. unfold receive.
  destruct (queue q) as [|e buf] eqn:Hq, (sendq q) as [|b blocked] eqn:Hs;
    intros Heq; inversion Heq; subst; (split; [|reflexivity]); split; cbn.
  - cbn in Hfull. specialize (Hfull ltac:(discriminate)). lia.
  - intros _. cbn in Hfull. now specialize (Hfull ltac:(discriminate)).
  - cbn in Hle. lia.
  - intros Hn. now contradiction Hn.
  - rewrite length_app. cbn. cbn in Hle. lia.
  - intros _. rewrite length_app. cbn.
    cbn in Hfull. specialize (Hfull ltac:(discriminate)). lia.
Qed.

Lemma buffer_ok_same (q q' : Queue C) :
  same_buffers q q' -> buffer_ok q -> buffer_ok q' /\ size q' = size q.
Proof.
  intros (Hq & Hs & Hsz & _) [Hle Hfull]. unfold buffer_ok.
  rewrite Hq, Hs, Hsz. auto.
Qed.

Lemma buffer_ok_Run_iteration env (q : Queue C) w st :
  buffer_ok q ->
  Run_iteration env q w = Ok st ->
  match st with
  | Continue q' _ | Return q' _ => buffer_ok q' /\ size q' = size q
  | Idle => True
  end.
Proof.
  intros Hok. unfold Run_iteration.
  destruct (queue_closed q); [discriminate|].
  assert (Hstopped : Run_stop q w = Ok st ->
            match st with
            | Continue q' _ | Return q' _ => buffer_ok q' /\ size q' = size q
            | Idle => True
            end).
  { unfold Run_stop. destruct (sendq q); [|discriminate].
    destruct (drain (queue q) w); cbn; try discriminate.
    intros [= <-]. repeat split; cbn; [lia|]. intros Hn. now contradiction Hn. }
  assert (Hentry : ∀ entry q1, receive q = Some (entry, q1) ->
            Run_entry env entry q1 w = Ok st ->
            match st with
            | Continue q' _ | Return q' _ => buffer_ok q' /\ size q' = size q
            | Idle => True
            end).
  { intros entry q1 Hrecv Hrun.
    apply Run_entry_trace in Hrun as (q2 & w3 & evs & -> & Hsb & _).
    destruct (buffer_ok_receive _ _ _ Hok Hrecv) as [Hok1 Hsz1].
    destruct (buffer_ok_same _ _ Hsb Hok1) as [Hok2 Hsz2].
    split; [exact Hok2 | congruence]. }
  destruct (stop q), (receive q) as [[entry q1]|] eqn:Hrecv.
  - destruct (run_pick env); [exact Hstopped | now apply Hentry].
  - exact Hstopped.
  - now apply Hentry.
  - now intros [= <-].
Qed.

Lemma buffer_ok_act a (s : System C) :
  buffer_ok (sys_queue s) ->
  buffer_ok (sys_queue (act a s))
  /\ size (sys_queue (act a s)) = size (sys_queue s).
Proof.
  intros Hok. unfold act. destruct a as [exec ch| |env].
  - destruct (worker s); [| |auto];
      (destruct (TransactionEnqueue exec ch (sys_queue s))
         as [[r q1]| |] eqn:Henq; cbn; [|auto..];
       exact (buffer_ok_enqueue _ _ _ _ _ Hok Henq)).
  - destruct (worker s); [| |auto];
      exact (buffer_ok_same _ _ (Stop_same_buffers _) Hok).
  - destruct (worker s); [|auto..].
    destruct (Run_iteration env (sys_queue s) (sys_world s))
      as [st| |] eqn:Hrun; [|auto..].
    pose proof (buffer_ok_Run_iteration _ _ _ _ Hok Hrun) as Hst.
    destruct st; cbn; auto.
Qed.

(** X5. A queue made by [NewQueue] with capacity [sz] never holds more
    than [sz] entries in its buffer, whatever callers, [Stop] and the
    worker do; and a caller is parked in its send only while the buffer is
    full. *)
Theorem buffer_never_exceeds_capacity sz (cl : C) tmo w (l : list Action) :
  let s := acts l {| sys_queue := NewQueue sz cl tmo; sys_world := w;
                     worker := Looping |} in
  size (sys_queue s) = sz
  /\ (length (queue (sys_queue s)) <= sz)%nat
  /\ (sendq (sys_queue s) ≠ [] -> length (queue (sys_queue s)) = sz).
Proof.
  cbv zeta.
  assert (Hgen : ∀ (s : System C),
            buffer_ok (sys_queue s) ->
            buffer_ok (sys_queue (acts l s))
            /\ size (sys_queue (acts l s)) = size (sys_queue s)).
  { induction l as [|a l IH]; intros s Hok; [auto|].
    change (acts (a :: l) s) with (acts l (act a s)).
    destruct (buffer_ok_act a s Hok) as [Hok1 Hsz1].
    destruct (IH _ Hok1) as [Hok2 Hsz2].
    split; [exact Hok2 | now rewrite Hsz2]. }
  destruct (Hgen {| sys_queue := NewQueue sz cl tmo; sys_world := w;
                    worker := Looping |}) as [[Hle Hfull] Hsz].
  { split; cbn; [lia|]. intros Hn. now contradiction Hn. }
  cbn in Hsz. rewrite Hsz in Hle, Hfull. auto.
Qed.

(** ** Only [Stop] ends the worker *)

(** While nobody calls [Stop], the poller leaves [q.stop] as it is. *)
Lemma poller_keeps_stop fuel env i deadline chainID txHash (q q' : Queue C)
    w w' e :
  stop_at env = None ->
  checkIfTransactionExists fuel env i deadline chainID txHash q w
  = Ok (e, q', w') ->
  stop q' = stop q.
Proof.
  intros Hnone. revert i q w.
  induction fuel as [|fuel IH]; intros i q w; [discriminate|].
  cbn [checkIfTransactionExists]. unfold stop_called. rewrite Hnone.
  destruct (select_case _ _).
  - now intros [= _ <- _].
  - now intros [= _ <- _].
  - destruct (TransactionByHash (bc q) chainID txHash)
      as [[[tr pending] e0] cl].
    destruct e0 as [e0|]; [|destruct pending].
    + intros Hrun. now apply IH in Hrun.
    + intros Hrun. now apply IH in Hrun.
    + now intros [= _ <- _].
Qed.

Lemma Run_entry_keeps_stop env entry (q1 q2 : Queue C) w w3 :
  stop_at env = None ->
  Run_entry env entry q1 w = Ok (Continue q2 w3) ->
  stop q2 = stop q1 /\ queue_closed q2 = queue_closed q1.
Proof.
  intros Hnone Hrun. pose proof Hrun as Htr.
  apply Run_entry_trace in Htr
    as (q2' & w3' & evs & [= <- <-] & (_ & _ & _ & Hcl & _) & _).
  split; [|exact Hcl]. revert Hrun. unfold Run_entry.
  destruct (entry_exec entry ()) as [[t|] [e|]].
  - destruct (resp _ _ _ _); cbn; try discriminate. now intros [= <- _].
  - unfold waitAfterSend.
    destruct (checkIfTransactionExists _ _ _ _ _ _ _ _)
      as [[[e q'] w']| |] eqn:Hpoll; cbn; try discriminate.
    destruct (resp _ _ _ _); cbn; try discriminate.
    intros [= <- _]. exact (poller_keeps_stop _ _ _ _ _ _ _ _ _ _ _ Hnone Hpoll).
  - destruct (resp _ _ _ _); cbn; try discriminate. now intros [= <- _].
  - discriminate.
Qed.

Lemma running_act a (s : System C) :
  no_stop a ->
  stop (sys_queue s) = false ->
  queue_closed (sys_queue s) = false ->
  worker s ≠ Finished ->
  stop (sys_queue (act a s)) = false
  /\ queue_closed (sys_queue (act a s)) = false
  /\ worker (act a s) ≠ Finished.
Proof.
  intros Ha Hstop Hopen Hw. unfold act. destruct a as [exec ch| |env].
  - unfold TransactionEnqueue. rewrite Hstop, Hopen.
    destruct (worker s) eqn:Hws;
      [| |repeat split; first [assumption | congruence]];
      destruct (length _ <? size _)%nat; cbn;
      repeat split; first [assumption | congruence].
  - now contradiction Ha.
  - cbn in Ha.
    destruct (worker s) eqn:Hws;
      [|repeat split; first [assumption | congruence]..].
    unfold Run_iteration. rewrite Hopen, Hstop.
    destruct (receive (sys_queue s)) as [[entry q1]|] eqn:Hrecv;
      [|repeat split; first [assumption | congruence]].
    destruct (Run_entry env entry q1 (sys_world s)) as [st| |] eqn:Hrun;
      [|cbn; repeat split; first [assumption | congruence]..].
    pose proof Hrun as Htr.
    apply Run_entry_trace in Htr as (q2 & w3 & evs & -> & _).
    destruct (Run_entry_keeps_stop _ _ _ _ _ _ Ha Hrun) as [Hs Hc].
    destruct (receive_bc _ _ _ Hrecv) as (_ & Hs1 & Hc1 & _).
    cbn. repeat split; congruence.
Qed.

(** X6. Only [Stop] ends the worker. Over any sequence of enqueues and
    passes of the worker during which nobody calls [Stop], the channel
    [q.stop] stays open, [q.queue] is never closed, [Run] does not return,
    and no call of [TransactionEnqueue] is refused with
    [ErrQueueClosed]. *)
Theorem Run_returns_only_after_Stop (l : list Action) (s : System C) :
  Forall no_stop l ->
  stop (sys_queue s) = false ->
  queue_closed (sys_queue s) = false ->
  worker s ≠ Finished ->
  stop (sys_queue (acts l s)) = false
  /\ queue_closed (sys_queue (acts l s)) = false
  /\ worker (acts l s) ≠ Finished
  /\ (∀ exec ch, ∃ out q',
        TransactionEnqueue exec ch (sys_queue (acts l s)) = Ok (out, q')
        /\ out ≠ Returned (Some ErrQueueClosed)).
Proof.
  intros Hl. revert s.
  induction Hl as [|a l Ha Hl IH]; intros s Hstop Hopen Hw.
  - cbn. repeat (split; [assumption|]).
    intros exec ch. unfold TransactionEnqueue. rewrite Hstop, Hopen.
    destruct (length _ <? size _)%nat; eexists _, _;
      (split; [reflexivity|discriminate]).
  - change (acts (a :: l) s) with (acts l (act a s)).
    destruct (running_act a s Ha Hstop Hopen Hw) as (Hs1 & Hc1 & Hw1).
    now apply IH.
Qed.

(** ** Responses are never empty *)

Lemma resp_received t e ch w w' :
  resp t e ch w = Ok w' ->
  ∀ ch' r, r ∈ received (chan w' ch') ->
           r ∈ received (chan w ch') \/ r = {| tx := t; err := e |}.
Proof.
  unfold resp. destruct (chan_closed (chan w ch)); [discriminate|].
  intros [= <-] ch' r. destruct (decide (ch = ch')) as [<- | Hne].
  - rewrite chan_insert_eq. cbn. rewrite elem_of_app, list_elem_of_singleton.
    trivial.
  - rewrite chan_insert_ne by assumption. auto.
Qed.

Lemma all_nonempty_resp t e ch w w' :
  t ≠ None \/ e ≠ None ->
  all_nonempty w ->
  resp t e ch w = Ok w' ->
  all_nonempty w'.
Proof.
  intros Hne Hall Hresp ch' r Hin.
  destruct (resp_received _ _ _ _ _ Hresp ch' r Hin) as [Hold | ->].
  - exact (Hall ch' r Hold).
  - exact Hne.
Qed.

Lemma all_nonempty_chans w w' :
  chans w' = chans w -> all_nonempty w -> all_nonempty w'.
Proof. intros Hc Hall ch r. unfold chan. rewrite Hc. apply Hall. Qed.

Lemma all_nonempty_drain entries w w' :
  all_nonempty w -> drain entries w = Ok w' -> all_nonempty w'.
Proof.
  revert w. induction entries as [|entry rest IH]; intros w Hall; cbn [drain].
  - now intros [= <-].
  - destruct (resp None (Some ErrQueueClosed) (entry_resp entry) w)
      as [w1| |] eqn:Hresp; cbn; try discriminate.
    apply IH. eapply all_nonempty_resp; [|exact Hall|exact Hresp].
    right. discriminate.
Qed.

Lemma all_nonempty_Run_entry env entry (q1 q2 : Queue C) w w3 :
  all_nonempty w ->
  Run_entry env entry q1 w = Ok (Continue q2 w3) ->
  all_nonempty w3.
Proof.
  intros Hall. unfold Run_entry.
  set (w1 := log_event w (EvExec (entry_resp entry))).
  assert (Hall1 : all_nonempty w1) by exact Hall.
  destruct (entry_exec entry ()) as [[t|] [e|]].
  - destruct (resp None (Some e) (entry_resp entry) w1) as [w2| |] eqn:Hresp;
      cbn; try discriminate.
    intros [= _ <-]. eapply all_nonempty_resp; [|exact Hall1|exact Hresp].
    right. discriminate.
  - destruct (waitAfterSend_returns env (big_Int64 (ChainId t)) (Hash t) q1 w1)
      as (e & q' & w2 & Hwait & _ & Hchans & _).
    rewrite Hwait. cbn.
    destruct (resp (Some t) e (entry_resp entry) w2) as [w3'| |] eqn:Hresp;
      cbn; try discriminate.
    intros [= _ <-]. eapply all_nonempty_resp; [| |exact Hresp].
    + left. discriminate.
    + now apply (all_nonempty_chans w1).
  - destruct (resp None (Some e) (entry_resp entry) w1) as [w2| |] eqn:Hresp;
      cbn; try discriminate.
    intros [= _ <-]. eapply all_nonempty_resp; [|exact Hall1|exact Hresp].
    right. discriminate.
  - discriminate.
Qed.

Lemma all_nonempty_act a (s : System C) :
  all_nonempty (sys_world s) -> all_nonempty (sys_world (act a s)).
Proof.
  intros Hall. unfold act. destruct a as [exec ch| |env].
  - destruct (worker s); [| |auto];
      destruct (TransactionEnqueue exec ch (sys_queue s)) as [[r q1]| |];
      exact Hall.
  - destruct (worker s); exact Hall.
  - destruct (worker s); [|exact Hall..].
    unfold Run_iteration.
    destruct (queue_closed (sys_queue s)); [exact Hall|].
    assert (Hstopped : all_nonempty
              (sys_world
                 match Run_stop (sys_queue s) (sys_world s) with
                 | Ok (Continue q1 w1) =>
                     {| sys_queue := q1; sys_world := w1; worker := Looping |}
                 | Ok (Return q1 w1) =>
                     {| sys_queue := q1; sys_world := w1; worker := Finished |}
                 | Ok Idle => s
                 | _ => {| sys_queue := sys_queue s; sys_world := sys_world s;
                           worker := Crashed |}
                 end)).
    { unfold Run_stop. destruct (sendq (sys_queue s)); [|exact Hall].
      destruct (drain (queue (sys_queue s)) (sys_world s)) as [w1| |] eqn:Hd;
        cbn; try exact Hall.
      exact (all_nonempty_drain _ _ _ Hall Hd). }
    assert (Hentry : ∀ entry q1,
              all_nonempty
                (sys_world
                   match Run_entry env entry q1 (sys_world s) with
                   | Ok (Continue q1 w1) =>
                       {| sys_queue := q1; sys_world := w1; worker := Looping |}
                   | Ok (Return q1 w1) =>
                       {| sys_queue := q1; sys_world := w1; worker := Finished |}
                   | Ok Idle => s
                   | _ => {| sys_queue := sys_queue s; sys_world := sys_world s;
                             worker := Crashed |}
                   end)).
    { intros entry q1.
      destruct (Run_entry env entry q1 (sys_world s)) as [st| |] eqn:Hrun;
        try exact Hall.
      pose proof Hrun as Htr.
      apply Run_entry_trace in Htr as (q2 & w3 & evs & -> & _).
      exact (all_nonempty_Run_entry _ _ _ _ _ _ Hall Hrun). }
    destruct (stop (sys_queue s)), (receive (sys_queue s)) as [[entry q1]|].
    + destruct (run_pick env); [exact Hstopped | apply Hentry].
    + exact Hstopped.
    + apply Hentry.
    + exact Hall.
Qed.

(** X7. The worker never delivers an empty response. If every response
    on the channels carries a transaction or an error (as when none was
    delivered yet), then so does every response that is on a channel after
    any sequence of enqueues, stops and passes of the worker; [Result] of
    such a response is the stored pair, not the missing-result error it
    makes up for an empty one. *)
Theorem delivered_responses_are_not_empty (l : list Action) (s : System C)
    ch r :
  all_nonempty (sys_world s) ->
  r ∈ received (chan (sys_world (acts l s)) ch) ->
  nonempty_response r /\ Result r = (tx r, err r).
Proof.
  intros Hall Hin.
  assert (Hne : nonempty_response r).
  { revert s Hall Hin. induction l as [|a l IH]; intros s Hall Hin.
    - exact (Hall ch r Hin).
    - change (acts (a :: l) s) with (acts l (act a s)) in Hin.
      exact (IH _ (all_nonempty_act a s Hall) Hin). }
  split; [exact Hne|].
  destruct r as [[t|] [e|]]; try reflexivity.
  destruct Hne as [Hn|Hn]; now contradiction Hn.
Qed.

(** ** The order of execution *)

Lemma execs_app evs1 evs2 : execs (evs1 ++ evs2) = execs evs1 ++ execs evs2.
Proof. apply omap_app. Qed.

Lemma execs_poll_events evs : Forall is_poll_event evs -> execs evs = [].
Proof.
  induction 1 as [|ev evs Hev _ IH]; [reflexivity|].
  destruct ev; [now contradiction Hev|exact IH..].
Qed.

(** A pass after which the loop goes on has taken an entry. *)
Lemma Run_iteration_Continue env (q q1 : Queue C) w w1 :
  Run_iteration env q w = Ok (Continue q1 w1) ->
  ∃ entry q0,
    receive q = Some (entry, q0)
    /\ Run_entry env entry q0 w = Ok (Continue q1 w1).
Proof.
  unfold Run_iteration. destruct (queue_closed q); [discriminate|].
  assert (Hstopped : Run_stop q w ≠ Ok (Continue q1 w1)).
  { unfold Run_stop. destruct (sendq q); [|discriminate].
    destruct (drain (queue q) w); cbn; discriminate. }
  destruct (stop q), (receive q) as [[entry q0]|]; try discriminate.
  - destruct (run_pick env); [intros Hr; now contradiction Hstopped|eauto].
  - intros Hr. now contradiction Hstopped.
  - eauto.
Qed.

(** X18. Send operations are called one at a time, in the order in which
    their entries were accepted: after [n] passes that each let the loop go
    on, the send operations called are those of the first [n] entries that
    waited (buffer first, then parked senders), in that order, and the
    entries behind them still wait in their order. *)
Theorem Run_executes_in_order envs (q q' : Queue C) w w' :
  Run envs q w = Ok (Continue q' w') ->
  ∃ evs,
    trace w' = trace w ++ evs
    /\ execs evs = entry_resp <$> take (length envs) (queue q ++ sendq q)
    /\ queue q' ++ sendq q' = drop (length envs) (queue q ++ sendq q).
Proof.
  revert q w. induction envs as [|env rest IH]; intros q w.
  - cbn. intros [= <- <-]. exists []. now rewrite app_nil_r.
  - cbn [Run].
    destruct (Run_iteration env q w) as [[q1 w1|q1 w1|]| |] eqn:Hpass;
      cbn; try discriminate.
    intros Hrest.
    apply Run_iteration_Continue in Hpass as (entry & q0 & Hrecv & Hrun).
    apply Run_entry_trace in Hrun
      as (q2 & w3 & evs0 & [= <- <-] & (Hq & Hs & _) & _ & Htr & Hevs0).
    apply IH in Hrest as (evs & Htr' & Hexecs & Hleft).
    rewrite (receive_order _ _ _ Hrecv), <- Hq, <- Hs. cbn.
    exists (EvExec (entry_resp entry) :: evs0 ++ evs).
    split; [now rewrite Htr', Htr, <- app_assoc|].
    split; [|exact Hleft].
    change (EvExec (entry_resp entry) :: evs0 ++ evs)
      with ([EvExec (entry_resp entry)] ++ (evs0 ++ evs)).
    rewrite !execs_app, (execs_poll_events _ Hevs0), Hexecs. reflexivity.
Qed.

(** ** How often the collaborator is asked *)

Lemma lookups_app evs1 evs2 : lookups (evs1 ++ evs2) = (lookups evs1 + lookups evs2)%nat.
Proof. unfold lookups. now rewrite filter_app, length_app. Qed.

(** The poller makes at most one call for each whole second between its
    start and the deadline. *)
Lemma poller_lookups fuel env i deadline chainID txHash (q q' : Queue C)
    w w' e :
  checkIfTransactionExists fuel env i deadline chainID txHash q w
  = Ok (e, q', w') ->
  ∃ evs,
    trace w' = trace w ++ evs
    /\ (lookups evs <= Z.to_nat ((deadline - now w) / Second))%nat.
Proof.
  revert i q w. induction fuel as [|fuel IH]; intros i q w; [discriminate|].
  cbn [checkIfTransactionExists].
  set (t := now w).
  set (st := if stop q then Some t else stop_at env).
  set (t' := wake_time deadline st t).
  set (q1 := if stop_called env t' then Stop q else q).
  destruct (select_case (prefer env i) (ready deadline st t)) eqn:Hsel.
  - intros [= _ _ <-]. exists []. rewrite app_nil_r. cbn. split; [reflexivity|lia].
  - intros [= _ _ <-]. exists []. rewrite app_nil_r. cbn. split; [reflexivity|lia].
  - apply select_TimerFired in Hsel as (Hw & Hdl & _). fold t' in Hw.
    destruct (TransactionByHash (bc q1) chainID txHash)
      as [[[tr pending] e0] cl].
    destruct (div_Second_step (deadline - t)) as [Hdiv Hone]; [lia|].
    assert (Hbound : ∀ n : nat,
              (n <= Z.to_nat ((deadline - t') / Second))%nat ->
              (1 + n <= Z.to_nat ((deadline - t) / Second))%nat).
    { intros n. rewrite Hw.
      replace (deadline - (t + Second)) with (deadline - t - Second) by lia.
      rewrite Hdiv. set (d := (deadline - t) / Second) in *. clearbody d. lia. }
    destruct e0 as [e0|]; [|destruct pending].
    + intros Hrun. apply IH in Hrun as (evs & Htr & Hn). cbn in Htr, Hn.
      exists (EvTransactionByHash chainID txHash :: EvLogErr e0 txHash :: evs).
      split; [now rewrite Htr, <- !app_assoc|].
      apply (Hbound (lookups evs)), Hn.
    + intros Hrun. apply IH in Hrun as (evs & Htr & Hn). cbn in Htr, Hn.
      exists (EvTransactionByHash chainID txHash :: evs).
      split; [now rewrite Htr, <- !app_assoc|].
      apply (Hbound (lookups evs)), Hn.
    + intros [= _ _ <-]. exists [EvTransactionByHash chainID txHash].
      split; [reflexivity|]. apply (Hbound 0%nat). lia.
Qed.

(** X8. One wait for a confirmation asks the collaborator at most once
    for each whole second of the timeout: [waitAfterSend] returns after at
    most [timeout / 1s] calls of [TransactionByHash], whatever they
    answer. *)
Theorem waitAfterSend_lookups env chainID txHash (q : Queue C) w :
  ∃ e q' w' evs,
    waitAfterSend env chainID txHash q w = Ok (e, q', w')
    /\ trace w' = trace w ++ evs
    /\ (lookups evs <= Z.to_nat (timeout q / Second))%nat.
Proof.
  destruct (waitAfterSend_returns env chainID txHash q w)
    as (e & q' & w' & Hwait & _).
  pose proof Hwait as Hrun. unfold waitAfterSend in Hrun.
  apply poller_lookups in Hrun as (evs & Htr & Hn).
  replace (now w + timeout q - now w) with (timeout q) in Hn by lia.
  now exists e, q', w', evs.
Qed.

(** X9. A timeout shorter than the one-second tick never confirms
    anything: when no shutdown is signalled, [waitAfterSend] returns the
    error that wraps [ErrTrasactionMissing] when the timeout has elapsed
    (at once when it is not positive), without having asked the
    collaborator. *)
Theorem waitAfterSend_short_timeout env chainID txHash (q : Queue C) w :
  timeout q < Second ->
  stop q = false ->
  stop_at env = None ->
  waitAfterSend env chainID txHash q w
  = Ok (Some (ErrFailedInQueue txHash), q,
        set_now w (Z.max (now w) (now w + timeout q))).
Proof.
  intros Hshort Hstop Hnone. unfold waitAfterSend, poll_fuel.
  cbn [checkIfTransactionExists]. unfold stop_called.
  rewrite Hstop, Hnone.
  pose proof (select_case_fires (prefer env 0) (now w + timeout q) None (now w))
    as Hf.
  assert (Hwake : wake_time (now w + timeout q) None (now w)
                  = Z.max (now w) (now w + timeout q)).
  { pose proof Second_pos. unfold wake_time. cbv zeta. lia. }
  rewrite Hwake in *.
  destruct (select_case _ _); cbn in Hf.
  - reflexivity.
  - discriminate.
  - injection Hf as Hf. pose proof Second_pos. lia.
Qed.

(** ** Misuse *)


(** X11. A shutdown while a caller waits for room. On a running queue
    whose buffer is full, [TransactionEnqueue] parks the caller in its
    send; if [Stop] is then called and the worker takes the stop case, the
    [close(q.queue)] of the worker makes the parked send panic. *)
Theorem Stop_with_parked_sender_panics exec ch env (q : Queue C) w :
  stop q = false ->
  once q = false ->
  queue_closed q = false ->
  length (queue q) = size q ->
  run_pick env = CaseStop ->
  ∃ q1,
    TransactionEnqueue exec ch q = Ok (Blocked, q1)
    /\ Run_iteration env (Stop q1) w = Panic "send on closed channel".
Proof.
  intros Hstop Honce Hopen Hfull Hpick.
  unfold TransactionEnqueue. rewrite Hstop, Hopen, Hfull, Nat.ltb_irrefl.
  eexists. split; [reflexivity|].
  unfold Run_iteration, Stop, receive, Run_stop. cbn. rewrite Honce. cbn.
  rewrite Hopen, Hpick.
  destruct (queue q), (sendq q); reflexivity.
Qed.

End WithClient.

(** ** Instances *)

(** An entry whose send operation fails is enqueued and taken. *)
Lemma Run_returns_only_after_Stop_witness :
  worker (acts [DoEnqueue send_fails 1; DoRun (quiet TimerFired)]
            {| sys_queue := NewQueue 1 always_pending (2 * Second);
               sys_world := world0; worker := Looping |})
  ≠ Finished
  /\ stop (sys_queue
             (acts [DoEnqueue send_fails 1; DoRun (quiet TimerFired)]
                {| sys_queue := NewQueue 1 always_pending (2 * Second);
                   sys_world := world0; worker := Looping |}))
     = false.
Proof.
  destruct (Run_returns_only_after_Stop
              [DoEnqueue send_fails 1; DoRun (quiet TimerFired)]
              {| sys_queue := NewQueue 1 always_pending (2 * Second);
                 sys_world := world0; worker := Looping |})
    as (Hstop & _ & Hw & _).
  - repeat constructor.
  - reflexivity.
  - reflexivity.
  - discriminate.
  - split; assumption.
Defined.

(** The response of that entry. *)
Lemma delivered_responses_are_not_empty_witness :
  Result {| tx := None; err := Some (ErrExternal "nonce too low") |}
  = (None, Some (ErrExternal "nonce too low")).
Proof.
  refine (proj2 (delivered_responses_are_not_empty
                   [DoEnqueue send_fails 1; DoRun (quiet TimerFired)]
                   {| sys_queue := NewQueue 1 always_pending (2 * Second);
                      sys_world := world0; worker := Looping |}
                   1%nat
                   {| tx := None; err := Some (ErrExternal "nonce too low") |}
                   _ _)).
  - intros ch r Hin. inversion Hin.
  - vm_compute. left.
Defined.

(** Half a second of timeout. *)
Lemma waitAfterSend_short_timeout_witness :
  waitAfterSend (quiet TimerFired) 1 170
    (NewQueue 1 always_pending 500000000) world0
  = Ok (Some (ErrFailedInQueue 170), NewQueue 1 always_pending 500000000,
        set_now world0 500000000).
Proof.
  exact (waitAfterSend_short_timeout (quiet TimerFired) 1 170
           (NewQueue 1 always_pending 500000000) world0
           eq_refl eq_refl eq_refl).
Defined.


(** A second entry for the full queue of capacity 1, then [Stop]. *)
Lemma Stop_with_parked_sender_panics_witness :
  ∃ q1,
    TransactionEnqueue send_fails 2 (one_entry always_pending send_ok)
    = Ok (Blocked, q1)
    /\ Run_iteration
         {| run_pick := CaseStop; stop_at := None; prefer := λ _, CtxDone |}
         (Stop q1) world0
       = Panic "send on closed channel".
Proof.
  exact (Stop_with_parked_sender_panics send_fails 2
           {| run_pick := CaseStop; stop_at := None; prefer := λ _, CtxDone |}
           (one_entry always_pending send_ok) world0
           eq_refl eq_refl eq_refl eq_refl eq_refl).
Defined.

(** Two failing send operations wait; the worker makes two passes. *)
Lemma Run_executes_in_order_witness :
  ∃ evs, execs evs = [2%nat; 1%nat].
Proof.
  destruct (Run_executes_in_order
              [quiet TimerFired; quiet TimerFired]
              {| queue := [ {| entry_exec := send_fails; entry_resp := 2 |};
                            {| entry_exec := send_fails; entry_resp := 1 |} ];
                 sendq := []; size := 2; queue_closed := false;
                 stop := false; bc := always_pending;
                 timeout := 2 * Second; once := false |}
              _ world0 _ eq_refl)
    as (evs & _ & Hexecs & _).
  exists evs. exact Hexecs.
Defined.

End QueueInvariants.

(** * Invariants of the nonce tracker *)

Module NonceInvariants.
Import Client NonceProps.

Lemma failed_cons a r rs :
  failed ((a, r) :: rs)
  = ((if snd r is Some _ then 1 else 0) + failed rs)%nat.
Proof.
  unfold failed. destruct r as [n [e|]].
  - rewrite filter_cons_True by (cbn; eauto). reflexivity.
  - rewrite filter_cons_False by (cbn; apply is_Some_None). reflexivity.
Qed.

(** One call: a query is made exactly when the call fails or caches a new
    account. *)
Lemma GetNonce_queries nt a :
  (length (asked (client (GetNonce nt a).2)) + size (nonces nt)
   = length (asked (client nt))
     + (if snd (GetNonce nt a).1 is Some _ then 1 else 0)
     + size (nonces (GetNonce nt a).2))%nat.
Proof.
  unfold GetNonce, PendingNonceAt.
  destruct (nonces nt !! a) as [v|] eqn:Hv.
  - cbn. rewrite map_size_insert_Some by eauto. lia.
  - destruct (answers (client nt) (length (asked (client nt))) a) as [p [e|]];
      cbn; rewrite length_app; cbn.
    + lia.
    + rewrite map_size_insert_None by assumption. lia.
Qed.

Lemma GetNonces_queries nt accounts :
  (length (asked (client (GetNonces nt accounts).2)) + size (nonces nt)
   = length (asked (client nt)) + failed (GetNonces nt accounts).1
     + size (nonces (GetNonces nt accounts).2))%nat.
Proof.
  revert nt. induction accounts as [|a rest IH]; intros nt.
  - cbn. unfold failed. cbn. lia.
  - rewrite GetNonces_cons. cbn [fst snd]. rewrite failed_cons.
    pose proof (GetNonce_queries nt a) as Hstep.
    pose proof (IH (GetNonce nt a).2) as Hrest.
    lia.
Qed.

(** X12. The node is asked only when it has to be: in every run of a new
    tracker, the number of [PendingNonceAt] queries made is the number of
    calls that returned an error plus the number of accounts in the
    table. *)
Theorem queries_are_failures_plus_accounts c accounts :
  length (asked (client (GetNonces (NewNonceTracker c) accounts).2))
  = (length (asked c)
     + failed (GetNonces (NewNonceTracker c) accounts).1
     + size (nonces (GetNonces (NewNonceTracker c) accounts).2))%nat.
Proof.
  pose proof (GetNonces_queries (NewNonceTracker c) accounts) as Hq.
  cbn [NewNonceTracker client nonces] in Hq. rewrite map_size_empty in Hq.
  cbn [NewNonceTracker client nonces]. lia.
Qed.

(** The nonces of a cached account depend on its entry and on the number
    of calls for it, not on the rest of the tracker. *)
Lemma issued_filter nt nt' a v accounts :
  nonces nt !! a = Some v ->
  nonces nt' !! a = Some v ->
  issued a (GetNonces nt accounts).1
  = issued a (GetNonces nt' (filter (λ b, b = a) accounts)).1.
Proof.
  revert nt nt' v. induction accounts as [|b rest IH]; intros nt nt' v Hv Hv';
    [reflexivity|].
  rewrite GetNonces_cons. cbn [fst].
  destruct (decide (b = a)) as [-> | Hne].
  - rewrite filter_cons_True by reflexivity.
    rewrite GetNonces_cons. cbn [fst]. rewrite !issued_cons_eq.
    rewrite (GetNonce_cached _ _ _ Hv), (GetNonce_cached _ _ _ Hv').
    cbn [fst snd]. f_equal.
    apply (IH _ _ (uint64_incr v)); cbn; apply lookup_insert_eq.
  - rewrite filter_cons_False by assumption.
    rewrite issued_cons_ne by assumption.
    apply (IH _ _ v); [|exact Hv'].
    now rewrite GetNonce_other by congruence.
Qed.

(** X13. Accounts do not disturb each other: once an account is cached,
    the results of the calls for it are the same whether or not calls for
    other accounts come in between. *)
Theorem GetNonce_accounts_independent nt a v accounts :
  nonces nt !! a = Some v ->
  issued a (GetNonces nt accounts).1
  = issued a (GetNonces nt (filter (λ b, b = a) accounts)).1.
Proof. intros Hv. now apply (issued_filter nt nt a v). Qed.

Lemma GetNonce_accounts_independent_witness :
  issued 7%N (GetNonces (GetNonce (NewNonceTracker (constant_client 5)) 7%N).2
                [3; 7; 4; 7]%N).1
  = issued 7%N (GetNonces (GetNonce (NewNonceTracker (constant_client 5)) 7%N).2
                  [7; 7]%N).1.
Proof.
  exact (GetNonce_accounts_independent
           (GetNonce (NewNonceTracker (constant_client 5)) 7%N).2 7%N 5
           [3; 7; 4; 7]%N eq_refl).
Defined.

End NonceInvariants.

(** * The identity registry *)

Module RegistryProps.
Import Registry.

Section WithContract.
Context {SigV SigR SigS Tx Key : Type}.

Lemma copy32_length (src : list Byte.byte) : length (copy32 src) = 32%nat.
Proof.
  unfold copy32. rewrite length_app, length_take, length_replicate. lia.
Qed.

(** Byte [i] of the array is byte [i] of the source, or zero when the
    source is too short. *)
Lemma copy32_lookup (src : list Byte.byte) (i : nat) :
  (i < 32)%nat -> copy32 src !! i = Some (default Byte.x00 (src !! i)).
Proof.
  intros Hi. unfold copy32.
  destruct (decide (i < length src)%nat) as [Hlt|Hge].
  - rewrite lookup_app_l by (rewrite length_take; lia).
    rewrite lookup_take. case_decide; [|lia].
    destruct (lookup_lt_is_Some_2 src i Hlt) as [x Hx]. now rewrite Hx.
  - rewrite lookup_app_r by (rewrite length_take; lia).
    rewrite length_take, (lookup_ge_None_2 src i) by lia.
    apply lookup_replicate_2. lia.
Qed.

Lemma copy32_id (src : list Byte.byte) : length src = 32%nat -> copy32 src = src.
Proof.
  intros Hlen. unfold copy32. rewrite Hlen, take_ge by lia.
  cbn. apply app_nil_r.
Qed.

(** X14. [RegisterIdentity] sends each part of the public key as exactly
    32 bytes: byte [i] is byte [i] of the part, or zero when the part is
    shorter; what a part has beyond 32 bytes is dropped, and a part of 32
    bytes is sent as it is. The signature is passed on untouched. *)
Theorem RegisterIdentity_key_parts
    (registry : @Registry SigV SigR SigS Tx)
    (data : @RegistrationData SigV SigR SigS) :
  ∃ p1 p2,
    RegisterIdentity registry data
    = session_RegisterIdentity (session registry) p1 p2
        (Signature_V data) (Signature_R data) (Signature_S data)
    /\ length p1 = 32%nat /\ length p2 = 32%nat
    /\ (∀ i, (i < 32)%nat ->
          p1 !! i = Some (default Byte.x00 (PublicKey_Part1 data !! i))
          /\ p2 !! i = Some (default Byte.x00 (PublicKey_Part2 data !! i)))
    /\ (length (PublicKey_Part1 data) = 32%nat -> p1 = PublicKey_Part1 data)
    /\ (length (PublicKey_Part2 data) = 32%nat -> p2 = PublicKey_Part2 data).
Proof.
  exists (copy32 (PublicKey_Part1 data)), (copy32 (PublicKey_Part2 data)).
  split; [reflexivity|].
  split; [apply copy32_length|]. split; [apply copy32_length|].
  split; [intros i Hi; split; now apply copy32_lookup|].
  split; apply copy32_id.
Qed.

(** X15. The key comes back as it went. If the contract returns for an
    address the two parts that [RegisterIdentity] sent for [data], then
    [LookupPublicKey] decodes a key of 65 bytes that starts with the byte 4
    of the uncompressed form; when both parts of [data] have 32 bytes, it
    is the byte 4 followed by the two parts themselves. *)
Theorem LookupPublicKey_after_RegisterIdentity
    (UnmarshalPubkey : list Byte.byte -> option Key * option error)
    (registry : @Registry SigV SigR SigS Tx)
    (data : @RegistrationData SigV SigR SigS) (address : N) :
  GetPublicKey (session registry) address
  = (copy32 (PublicKey_Part1 data), copy32 (PublicKey_Part2 data), None) ->
  ∃ key,
    LookupPublicKey UnmarshalPubkey registry address = UnmarshalPubkey key
    /\ length key = 65%nat
    /\ key !! 0%nat = Some Byte.x04
    /\ (length (PublicKey_Part1 data) = 32%nat ->
        length (PublicKey_Part2 data) = 32%nat ->
        key = Byte.x04 :: PublicKey_Part1 data ++ PublicKey_Part2 data).
Proof.
  intros Hget.
  exists (fullKey (copy32 (PublicKey_Part1 data))
                  (copy32 (PublicKey_Part2 data))).
  unfold LookupPublicKey. rewrite Hget. split; [reflexivity|].
  split; [|split; [reflexivity|]].
  - unfold fullKey. rewrite !length_app, !copy32_length. reflexivity.
  - intros H1 H2. unfold fullKey. now rewrite !copy32_id.
Qed.

End WithContract.

(** A key of two 32-byte parts, kept by a contract that returns what it
    was sent. *)
Lemma LookupPublicKey_after_RegisterIdentity_witness :
  ∃ key,
    LookupPublicKey (Key := list Byte.byte) (λ k, (Some k, None))
      {| session :=
           {| session_RegisterIdentity :=
                λ _ _ (_ _ _ : unit), (Some tt, None);
              GetPublicKey :=
                λ _, (replicate 32 Byte.x01, replicate 32 Byte.x02, None) |};
         Address := 0%N |}
      7%N
    = (Some key, None)
    /\ length key = 65%nat.
Proof.
  destruct (LookupPublicKey_after_RegisterIdentity
              (Key := list Byte.byte) (λ k, (Some k, None))
              {| session :=
                   {| session_RegisterIdentity :=
                        λ _ _ (_ _ _ : unit), (Some tt, None);
                      GetPublicKey :=
                        λ _, (replicate 32 Byte.x01, replicate 32 Byte.x02,
                              None) |};
                 Address := 0%N |}
              {| PublicKey_Part1 := replicate 32 Byte.x01;
                 PublicKey_Part2 := replicate 32 Byte.x02;
                 Signature_V := tt; Signature_R := tt; Signature_S := tt |}
              7%N eq_refl)
    as (key & Hlook & Hlen & _).
  exists key. split; assumption.
Defined.

End RegistryProps.

(** * The gas station *)

Module GasProps.
Import Gas.

Local Open Scope string_scope.

Lemma string_length_append (s1 s2 : string) :
  String.length (s1 ++ s2) = (String.length s1 + String.length s2)%nat.
Proof.
  induction s1 as [|c s1 IH]; simpl; [reflexivity|]. f_equal. exact IH.
Qed.

(** X16. [request] of a station made by [NewEtherscanStation] asks one
    address, the endpoint as it was given followed at once by the query
    and the key, and it returns a response exactly when the body fetched
    from there decodes to a response whose status is ["1"]. *)
Theorem request_succeeds_iff {R : Type}
    (fetch : string -> string + string)
    (Unmarshal : string -> etherscanGasPriceResponse R + string)
    (key uri : string) (ub : option Z) (res : etherscanGasPriceResponse R) :
  request fetch Unmarshal (NewEtherscanStation key uri ub) = inl res
  <-> ∃ body,
        fetch (uri ++ "api?module=gastracker&action=gasoracle&apikey=" ++ key)
        = inl body
        /\ Unmarshal body = inl res
        /\ Status res = "1".
Proof.
  unfold request, request_url, NewEtherscanStation. cbn [endpointURI apiKey].
  split.
  - destruct (fetch _) as [body|msg]; [|discriminate].
    destruct (Unmarshal body) as [res'|msg] eqn:Hdec; [|discriminate].
    destruct (String.eqb_spec (Status res') "1") as [Hst|Hst]; [|discriminate].
    intros [= <-]. exists body. rewrite Hdec. auto.
  - intros (body & -> & -> & Hst).
    apply String.eqb_eq in Hst. now rewrite Hst.
Qed.

(** X17. [NewEtherscanStation] does not complete the endpoint: the slash
    that it appends to an endpoint without one is not kept, so the address
    asked for an endpoint with a slash added is always one character longer
    than the address asked for the endpoint itself. *)
Theorem NewEtherscanStation_keeps_endpoint (key uri : string) (ub : option Z) :
  endpointURI (NewEtherscanStation key uri ub) = uri
  /\ String.length (request_url (NewEtherscanStation key (uri ++ "/") ub))
     = S (String.length (request_url (NewEtherscanStation key uri ub))).
Proof.
  split; [reflexivity|].
  unfold request_url, NewEtherscanStation. cbn [endpointURI apiKey].
  rewrite !string_length_append. cbn. lia.
Qed.

End GasProps.
